(** * BioKG-Builder: entity extraction, deduplication and graph queries

    A shallow embedding of the pure logic of the [biokg_builder] package
    (processor.py, visualizer.py, analyzer.py, core.py) together with the
    properties its specification states about it.

    Conventions.
    - A Python [str] is a [list ascii]; a character is a code point below
      256.  [len] is [length], slicing is [take]/[drop].
    - A Python [dict] whose iteration order matters is an insertion-ordered
      association list ([PyDict]); dictionaries and sets that are only
      looked up are stdpp's [gmap] and [gset].
    - A call that may raise returns a sum [exn + A]; external services
      (language model, embedding model, citation database, file system) are
      section variables. *)

From Stdlib Require Import Ascii String List NArith Lia.
From stdpp Require Import gmap strings list fin_maps sorting.

Set Warnings "-clear-no-such-hyp".

Abbreviation pystr := (list ascii).

(** String literals of the development. *)
Definition py (s : string) : pystr := list_ascii_of_string s.

(* ===================================================================== *)
(** ** Python string primitives *)
(* ===================================================================== *)

Module PyStr.

(** [str.isspace] on one character ([Py_UNICODE_ISSPACE], code points
    below 256): TAB..CR, FS..US, SPACE, NEL and NBSP.  The same predicate
    drives [str.strip], [str.split] and the regex class [\s]. *)
Definition is_space (c : ascii) : bool :=
  let n := N_of_ascii c in
  ((9 <=? n) && (n <=? 13) || (28 <=? n) && (n <=? 32)
   || (n =? 133) || (n =? 160))%N.

(** [str.lower] on one character: A-Z and the Latin-1 capitals
    (except the multiplication sign) move up by 32. *)
Definition lower_char (c : ascii) : ascii :=
  let n := N_of_ascii c in
  if ((65 <=? n) && (n <=? 90)
      || (192 <=? n) && (n <=? 222) && negb (n =? 215))%N
  then ascii_of_N (n + 32) else c.

Definition lower (s : pystr) : pystr := map lower_char s.

(** [s.lstrip()], [s.rstrip()], [s.strip()]. *)
Fixpoint lstrip (s : pystr) : pystr :=
  match s with
  | c :: s' => if is_space c then lstrip s' else s
  | [] => []
  end.

Definition rstrip (s : pystr) : pystr := rev (lstrip (rev s)).

Definition strip (s : pystr) : pystr := rstrip (lstrip s).

(** [s.startswith(p)]. *)
Fixpoint startswith (p s : pystr) : bool :=
  match p, s with
  | [], _ => true
  | a :: p', b :: s' => if decide (a = b) then startswith p' s' else false
  | _ :: _, [] => false
  end.

(** [sub in s]: substring test. *)
Fixpoint contains (sub s : pystr) : bool :=
  startswith sub s ||
  match s with
  | [] => false
  | _ :: s' => contains sub s'
  end.

(** [s.replace(old, new)]: every non-overlapping occurrence of [old],
    left to right.  [skip] counts the characters of an occurrence that
    is being stepped over.  With [old] empty, [new] is put before every
    character and at the end. *)
Fixpoint replace_from (old new s : pystr) (skip : nat) : pystr :=
  match s with
  | [] => []
  | c :: s' =>
      match skip with
      | S k => replace_from old new s' k
      | 0 => if startswith old s
             then new ++ replace_from old new s' (length old - 1)
             else c :: replace_from old new s' 0
      end
  end.

Definition replace (old new s : pystr) : pystr :=
  match old with
  | [] => new ++ flat_map (fun c => c :: new) s
  | _ :: _ => replace_from old new s 0
  end.

(** [s.split()]: the maximal whitespace-free runs of [s].  [cur] holds
    the run being read, reversed. *)
Fixpoint split_from (s : pystr) (cur : pystr) : list pystr :=
  match s with
  | [] => match cur with [] => [] | _ => [rev cur] end
  | c :: s' =>
      if is_space c
      then match cur with
           | [] => split_from s' []
           | _ => rev cur :: split_from s' []
           end
      else split_from s' (c :: cur)
  end.

Definition split (s : pystr) : list pystr := split_from s [].

(** Lexicographic order by code point, the order of [sorted] on [str]. *)
Definition le (a b : pystr) : Prop :=
  String.le (string_of_list_ascii a) (string_of_list_ascii b).

End PyStr.

(* ===================================================================== *)
(** ** The regular expression of processor.py and visualizer.py *)
(* ===================================================================== *)

Module Regex.

(** The single-character classes the pattern uses. *)
Inductive charclass :=
| Lit (c : ascii)       (* an escaped literal, [\(] *)
| NotChar (c : ascii)   (* a negated one-character set, [[^,]] *)
| Space.                (* [\s] *)

Definition class_matches (cls : charclass) (c : ascii) : bool :=
  match cls with
  | Lit x => bool_decide (c = x)
  | NotChar x => negb (bool_decide (c = x))
  | Space => PyStr.is_space c
  end.

(** Pattern items: a class taken once, a greedy [*] or [+] over a
    class, and the two ends of a capturing group. *)
Inductive node :=
| One (cls : charclass)
| Star (cls : charclass)
| Plus (cls : charclass)
| GroupOpen (n : nat)
| GroupClose (n : nat).

(** Match state: where the groups still open began, and the spans
    [(start, end)] of the closed ones. *)
Record marks := Marks {
  opened : list (nat * nat);
  closed : list (nat * (nat * nat))
}.

Definition no_marks : marks := Marks [] [].

Fixpoint assoc {V} (n : nat) (l : list (nat * V)) : option V :=
  match l with
  | [] => None
  | (k, v) :: l' => if decide (k = n) then Some v else assoc n l'
  end.

Definition open_group (n pos : nat) (m : marks) : marks :=
  Marks ((n, pos) :: opened m) (closed m).

Definition close_group (n pos : nat) (m : marks) : marks :=
  match assoc n (opened m) with
  | Some start => Marks (opened m) ((n, (start, pos)) :: closed m)
  | None => m
  end.

(** A greedy repetition of [cls] followed by the continuation [k]:
    the longest run is tried first, and one character is given back at
    a time while [k] fails. *)
Fixpoint greedy {R} (cls : charclass) (k : pystr → nat → option R)
    (s : pystr) (pos : nat) : option R :=
  match s with
  | c :: s' =>
      if class_matches cls c
      then match greedy cls k s' (S pos) with
           | Some r => Some r
           | None => k s pos
           end
      else k s pos
  | [] => k s pos
  end.

(** Backtracking match of the items [p] against [s], which starts at
    offset [pos] of the subject; the result is the end offset and the
    group marks. *)
Fixpoint match_here (p : list node) (s : pystr) (pos : nat) (m : marks)
    : option (nat * marks) :=
  match p with
  | [] => Some (pos, m)
  | One cls :: p' =>
      match s with
      | c :: s' =>
          if class_matches cls c then match_here p' s' (S pos) m else None
      | [] => None
      end
  | Star cls :: p' =>
      greedy cls (fun s1 pos1 => match_here p' s1 pos1 m) s pos
  | Plus cls :: p' =>
      match s with
      | c :: s' =>
          if class_matches cls c
          then greedy cls (fun s1 pos1 => match_here p' s1 pos1 m) s' (S pos)
          else None
      | [] => None
      end
  | GroupOpen n :: p' => match_here p' s pos (open_group n pos m)
  | GroupClose n :: p' => match_here p' s pos (close_group n pos m)
  end.

(** The text of group [n]; a group that took no part is the empty
    string, as in the tuples of [re.findall]. *)
Definition group (subject : pystr) (m : marks) (n : nat) : pystr :=
  match assoc n (closed m) with
  | Some (b, e) => take (e - b) (drop b subject)
  | None => []
  end.

(** [re.findall] for a pattern with two groups: the non-overlapping
    matches from left to right, each as the pair of its groups.  [rest]
    is the subject from offset [pos] on; [skip] counts the characters of
    the last match still to step over. *)
Fixpoint scan (p : list node) (subject rest : pystr) (pos skip : nat)
    : list (pystr * pystr) :=
  match skip with
  | S k =>
      match rest with
      | [] => []
      | _ :: rest' => scan p subject rest' (S pos) k
      end
  | 0 =>
      match match_here p rest pos no_marks with
      | Some (e, m) =>
          (group subject m 1, group subject m 2) ::
          match rest with
          | [] => []
          | _ :: rest' => scan p subject rest' (S pos) (e - pos - 1)
          end
      | None =>
          match rest with
          | [] => []
          | _ :: rest' => scan p subject rest' (S pos) 0
          end
      end
  end.

Definition findall (p : list node) (subject : pystr) : list (pystr * pystr) :=
  scan p subject subject 0 0.

Definition lparen : ascii := "("%char.
Definition rparen : ascii := ")"%char.
Definition comma : ascii := ","%char.

(** [r'\(([^,]+),\s*([^\)]+)\)'] *)
Definition pattern : list node :=
  [ One (Lit lparen);
    GroupOpen 1; Plus (NotChar comma); GroupClose 1;
    One (Lit comma);
    Star Space;
    GroupOpen 2; Plus (NotChar rparen); GroupClose 2;
    One (Lit rparen) ].

End Regex.

(** Entity-pair extraction, as every consumer of the pattern does it:
    [for match in re.findall(self.pattern, value)] followed by
    [match[0].strip(), match[1].strip()]. *)
Definition extract_pairs (value : pystr) : list (pystr * pystr) :=
  map (fun mt => (PyStr.strip mt.1, PyStr.strip mt.2))
      (Regex.findall Regex.pattern value).

(* ===================================================================== *)
(** ** Exceptions, dictionaries and tables *)
(* ===================================================================== *)

(** A raised exception: a [KeyError] for a missing column, or any other
    exception with its message ([str(e)]). *)
Inductive exn :=
| KeyError (key : pystr)
| Raised (msg : pystr).

Definition exn_message (e : exn) : pystr :=
  match e with
  | KeyError k => k
  | Raised msg => msg
  end.

Module PyDict.

(** A [dict] from strings to strings in insertion order: assigning to a
    key that is present replaces its value where it stands, a new key
    goes to the end. *)
Definition t := list (pystr * pystr).

Definition empty : t := [].

Fixpoint set (k v : pystr) (d : t) : t :=
  match d with
  | [] => [(k, v)]
  | (k', v') :: d' =>
      if decide (k' = k) then (k, v) :: d' else (k', v') :: set k v d'
  end.

Fixpoint get (k : pystr) (d : t) : option pystr :=
  match d with
  | [] => None
  | (k', v') :: d' => if decide (k' = k) then Some v' else get k d'
  end.

(** [d.items()] *)
Definition items (d : t) : list (pystr * pystr) := d.

End PyDict.

(** A cell of a table: a string, or the missing value (NaN). *)
Abbreviation cell := (option pystr).

(** [str(x)] of a cell. *)
Definition str (x : cell) : pystr :=
  match x with
  | Some s => s
  | None => py "nan"
  end.

(** [x] after [fillna("").astype(str)]. *)
Definition fillna_str (x : cell) : pystr :=
  match x with
  | Some s => s
  | None => []
  end.

(** A [pandas.DataFrame] with the default index [0 .. n_rows - 1]: the
    columns by name, each a list of [n_rows] cells. *)
Record DataFrame := mkDataFrame {
  n_rows : nat;
  columns : gmap pystr (list cell)
}.

(** [row[column]] of row [i]: a [KeyError] without the column. *)
Definition row_item (df : DataFrame) (i : nat) (column : pystr) : exn + cell :=
  match columns df !! column with
  | Some col => inr (default None (col !! i))
  | None => inl (KeyError column)
  end.

(** [row.get(column, dflt)] of row [i]. *)
Definition row_get (df : DataFrame) (i : nat) (column : pystr) (dflt : cell)
    : cell :=
  match columns df !! column with
  | Some col => default None (col !! i)
  | None => dflt
  end.

(** [df.at[i, column] = v] on an existing column. *)
Definition set_at (df : DataFrame) (i : nat) (column : pystr) (v : cell)
    : DataFrame :=
  mkDataFrame (n_rows df) (alter (λ col, <[i := v]> col) column (columns df)).

(** [df[column] = v]: the whole column becomes [v]. *)
Definition set_column (df : DataFrame) (column : pystr) (v : cell) : DataFrame :=
  mkDataFrame (n_rows df) (<[column := replicate (n_rows df) v]> (columns df)).

Definition answer_column : pystr := py "Answer to Question 2".
Definition abstract_column : pystr := py "Abstract".
Definition title_column : pystr := py "Title".

(* ===================================================================== *)
(** ** processor.py: [EntityProcessor] *)
(* ===================================================================== *)

Module Processor.

(** [sorted(...)] of a list of strings. *)
Definition sorted (l : list pystr) : list pystr := merge_sort PyStr.le l.

(** [extract_entities(df, column)]: the entities of every pair of every
    cell, as a set; the empty string is dropped and the rest sorted. *)
Definition extract_entities (df : DataFrame) (column : pystr) : list pystr :=
  match columns df !! column with
  | None => []
  | Some col =>
      let entities : gset pystr :=
        foldl (λ (acc : gset pystr) value,
                 foldl (λ (acc : gset pystr) mt,
                          acc ∪ list_to_set [PyStr.strip mt.1; PyStr.strip mt.2])
                       acc (Regex.findall Regex.pattern value))
              ∅ (fillna_str <$> col) in
      sorted (filter (λ e, e ≠ []) (elements entities))
  end.

(** The body of both pair loops: of a similar pair the shorter string
    stands for the other, the earlier one on equal length. *)
Definition keep_shorter (ei ej : pystr) (similar_phrases : PyDict.t) : PyDict.t :=
  if length ei <=? length ej
  then PyDict.set ej ei similar_phrases
  else PyDict.set ei ej similar_phrases.

(** [for i in range(len(entities)): for j in range(i + 1, len(entities))],
    with [judged i j] deciding whether entities [i] and [j] are similar. *)
Definition pair_loop (judged : nat → nat → bool) (entities : list pystr)
    : PyDict.t :=
  let n := length entities in
  foldl (λ d i,
           foldl (λ d j,
                    if judged i j
                    then keep_shorter (entities !!! i) (entities !!! j) d
                    else d)
                 d (seq (i + 1) (n - (i + 1))))
        PyDict.empty (seq 0 n).

Section similarity.

(** [(common / total) > self.config.similarity_threshold], a comparison
    of binary floating-point numbers, is left to the caller. *)
Variable ratio_exceeds_threshold : nat → nat → bool.

(** The sentence-embedding model, when one is configured and loads:
    [cos_sim_exceeds entities i j] tells whether the cosine similarity of
    the embeddings of entities [i] and [j] exceeds the threshold. *)
Variable model : option (list pystr → nat → nat → bool).

(** [_is_similar(s1, s2)] *)
Definition _is_similar (s1 s2 : pystr) : bool :=
  let s1_lower := PyStr.lower s1 in
  let s2_lower := PyStr.lower s2 in
  if PyStr.contains s1_lower s2_lower || PyStr.contains s2_lower s1_lower
  then true
  else
    let words1 : gset pystr := list_to_set (PyStr.split s1_lower) in
    let words2 : gset pystr := list_to_set (PyStr.split s2_lower) in
    let common := size (words1 ∩ words2) in
    let total := size (words1 ∪ words2) in
    if 0 <? total then ratio_exceeds_threshold common total else false.

(** [_find_similar_with_strings(entities)] *)
Definition _find_similar_with_strings (entities : list pystr) : PyDict.t :=
  pair_loop (λ i j, _is_similar (entities !!! i) (entities !!! j)) entities.

(** [_find_similar_with_embeddings(entities, model)] *)
Definition _find_similar_with_embeddings (entities : list pystr)
    (cos_sim_exceeds : list pystr → nat → nat → bool) : PyDict.t :=
  pair_loop (cos_sim_exceeds entities) entities.

(** [find_similar_entities(entities)] *)
Definition find_similar_entities (entities : list pystr) : PyDict.t :=
  match entities with
  | [] => PyDict.empty
  | _ :: _ =>
      match model with
      | Some m => _find_similar_with_embeddings entities m
      | None => _find_similar_with_strings entities
      end
  end.

(** The inner loop of [substitute_similar_entities] on one cell. *)
Definition substitute_cell (similar_phrases : PyDict.t) (cell_value : pystr)
    : pystr :=
  foldl (λ value kv, PyStr.replace kv.1 kv.2 value)
        cell_value (PyDict.items similar_phrases).

(** [substitute_similar_entities(df, similar_phrases, column)]: with an
    empty map [df] itself comes back; otherwise every row of a copy is
    rewritten, and [row[column]] raises without the column. *)
Definition substitute_similar_entities (df : DataFrame)
    (similar_phrases : PyDict.t) (column : pystr) : exn + DataFrame :=
  match similar_phrases with
  | [] => inr df
  | _ :: _ =>
      foldl (λ (acc : exn + DataFrame) index,
               match acc with
               | inl e => inl e
               | inr modified_df =>
                   match row_item modified_df index column with
                   | inl e => inl e
                   | inr x =>
                       let cell_value := substitute_cell similar_phrases (str x) in
                       inr (set_at modified_df index column (Some cell_value))
                   end
               end)
            (inr df) (seq 0 (n_rows df))
  end.

(** [process_entities(df)] *)
Definition process_entities (df : DataFrame)
    : exn + (DataFrame * list pystr * PyDict.t) :=
  let entities := extract_entities df answer_column in
  let similar_phrases := find_similar_entities entities in
  match substitute_similar_entities df similar_phrases answer_column with
  | inl e => inl e
  | inr processed_df =>
      let final_entities := extract_entities processed_df answer_column in
      inr (processed_df, final_entities, similar_phrases)
  end.

End similarity.

End Processor.

(* ===================================================================== *)
(** ** visualizer.py: [NetworkVisualizer] *)
(* ===================================================================== *)

Module Visualizer.

(** A [networkx.Graph]: the nodes with their [label] attribute (when one
    was set), and for every node its neighbours with the [title] of the
    connecting edge.  An undirected edge is stored under both ends. *)
Record Graph := mkGraph {
  nodes : gmap pystr (option pystr);
  adj : gmap pystr (gmap pystr pystr)
}.

(** [nx.Graph()] *)
Definition empty_graph : Graph := mkGraph ∅ ∅.

(** [G.add_node(n, label=l)] *)
Definition add_node (n l : pystr) (G : Graph) : Graph :=
  mkGraph (<[n := Some l]> (nodes G))
          (match nodes G !! n with
           | Some _ => adj G
           | None => <[n := ∅]> (adj G)
           end).

(** A node that [add_edge] meets for the first time has no attribute. *)
Definition touch_node (n : pystr) (G : Graph) : Graph :=
  match nodes G !! n with
  | Some _ => G
  | None => mkGraph (<[n := None]> (nodes G)) (<[n := ∅]> (adj G))
  end.

(** [G.add_edge(u, v, title=t)] *)
Definition add_edge (u v t : pystr) (G : Graph) : Graph :=
  let G := touch_node v (touch_node u G) in
  let adj1 := <[u := <[v := t]> (default ∅ (adj G !! u))]> (adj G) in
  let adj2 := <[v := <[u := t]> (default ∅ (adj1 !! v))]> adj1 in
  mkGraph (nodes G) adj2.

(** [graph.neighbors(n)] *)
Definition neighbors (G : Graph) (n : pystr) : gset pystr :=
  dom (default ∅ (adj G !! n)).

(** [graph.subgraph(keep)]: the nodes of [keep] that the graph has, and
    every edge of the graph between two of them. *)
Definition subgraph (G : Graph) (keep : gset pystr) : Graph :=
  mkGraph (filter (λ na, na.1 ∈ keep) (nodes G))
          ((λ nbrs : gmap pystr pystr,
              filter (λ vt, vt.1 ∈ keep ∧ vt.1 ∈ dom (nodes G)) nbrs)
             <$> filter (λ na, na.1 ∈ keep ∧ na.1 ∈ dom (nodes G)) (adj G)).

(** [attr.get('label', '')] *)
Definition label_of (attr : option pystr) : pystr := default [] attr.

(** The nodes whose label contains the keyword, both lowered. *)
Definition keyword_nodes (graph : Graph) (keyword : pystr) : gset pystr :=
  let keyword_lower := PyStr.lower keyword in
  dom (filter (λ na, PyStr.contains keyword_lower
                       (PyStr.lower (label_of na.2)) = true)
              (nodes graph)).

(** One round of the expansion loop. *)
Definition expand (graph : Graph) (nodes_of_interest : gset pystr)
    : gset pystr :=
  let new_nodes : gset pystr :=
    set_bind (λ node, if decide (node ∈ dom (nodes graph))
                      then neighbors graph node else ∅)
             nodes_of_interest in
  nodes_of_interest ∪ new_nodes.

(** [_search_network(graph, keyword, depth)]; [range(depth)] is empty
    for a negative [depth], so the number of rounds is a [nat]. *)
Definition _search_network (graph : Graph) (keyword : pystr) (depth : nat)
    : Graph :=
  let nodes_of_interest := keyword_nodes graph keyword in
  if decide (nodes_of_interest = ∅) then empty_graph
  else subgraph graph (Nat.iter depth (expand graph) nodes_of_interest).

(** The test of the graph-building loops: both entities non-empty and
    neither containing an excluded string. *)
Definition accepted (exclude_entities : list pystr) (entity_a entity_b : pystr)
    : bool :=
  negb (bool_decide (entity_a = [])) && negb (bool_decide (entity_b = []))
  && negb (existsb (λ exc, PyStr.contains exc entity_a) exclude_entities)
  && negb (existsb (λ exc, PyStr.contains exc entity_b) exclude_entities).

(** The body of the inner loop of [create_filtered_network] for one
    match of the pattern in a cell whose article is [source]. *)
Definition add_match (exclude_entities : list pystr) (source : pystr)
    (G : Graph) (mt : pystr * pystr) : Graph :=
  let entity_a := PyStr.strip mt.1 in
  let entity_b := PyStr.strip mt.2 in
  if accepted exclude_entities entity_a entity_b
  then add_edge entity_a entity_b source
         (add_node entity_b entity_b (add_node entity_a entity_a G))
  else G.

(** The graph-building loop of [create_filtered_network]. *)
Definition build_graph (df : DataFrame) (exclude_entities : list pystr) : Graph :=
  foldl (λ G i,
           let value := str (row_get df i answer_column (Some [])) in
           let source := str (row_get df i title_column (Some (py "Unknown"))) in
           foldl (add_match exclude_entities source) G
                 (Regex.findall Regex.pattern value))
        empty_graph (seq 0 (n_rows df)).

(** [create_filtered_network(df, keyword, search_keyword, depth,
    exclude_entities)] up to rendering: the graph that is drawn, empty
    when no node matches. *)
Definition create_filtered_network (df : DataFrame) (search_keyword : pystr)
    (depth : nat) (exclude_entities : option (list pystr)) : Graph :=
  let exclude_entities := default [] exclude_entities in
  let G := build_graph df exclude_entities in
  _search_network G search_keyword depth.

End Visualizer.

(* ===================================================================== *)
(** ** analyzer.py: [CausalAnalyzer] *)
(* ===================================================================== *)

Module Analyzer.

Section analyzer.

(** The language-model request made for row [i] with the text [text]:
    what the [try] block of [analyze_abstract] gets before trimming, the
    reply's content, or the exception raised on the way (time-out,
    quota, malformed reply). *)
Variable chat : nat → pystr → exn + pystr.

(** [not abstract or pd.isna(abstract)] *)
Definition is_blank (abstract : cell) : bool :=
  match abstract with
  | None => true
  | Some [] => true
  | Some (_ :: _) => false
  end.

(** [analyze_abstract(abstract)], called for row [i]. *)
Definition analyze_abstract (i : nat) (abstract : cell) : pystr :=
  if is_blank abstract then []
  else
    match chat i (str abstract) with
    | inr content => PyStr.strip content
    | inl _ => []
    end.

(** [analyze_single_row(index, row, total_rows)], progress report
    apart; [rows] is the table the rows were read from. *)
Definition analyze_single_row (rows : DataFrame) (index : nat)
    : exn + (nat * pystr) :=
  match row_item rows index abstract_column with
  | inl e => inl e
  | inr abstract =>
      let result :=
        if is_blank abstract then [] else analyze_abstract index abstract in
      inr (index, result)
  end.

(** [_batch_analyze_parallel]: the futures are collected in the order
    [completed] in which they finish; a future that raised leaves the
    empty string in its row. *)
Definition _batch_analyze_parallel (df rows : DataFrame)
    (completed : list nat) : DataFrame :=
  foldl (λ df i,
           match analyze_single_row rows i with
           | inr (index, result) => set_at df index answer_column (Some result)
           | inl _ => set_at df i answer_column (Some [])
           end)
        df completed.

(** [_batch_analyze_sequential] *)
Definition _batch_analyze_sequential (df rows : DataFrame)
    (rows_to_process : list nat) : exn + DataFrame :=
  foldl (λ (acc : exn + DataFrame) index,
           match acc with
           | inl e => inl e
           | inr df =>
               match row_item rows index abstract_column with
               | inl e => inl e
               | inr abstract =>
                   let result := analyze_abstract index abstract in
                   inr (set_at df index answer_column (Some result))
               end
           end)
        (inr df) rows_to_process.

(** [batch_analyze(df, start_row)].  [use_parallel] is the configured
    mode and [as_completed] the order in which the pool hands back the
    submitted rows. *)
Definition batch_analyze (use_parallel : bool)
    (as_completed : list nat → list nat)
    (df : DataFrame) (start_row : Z) : exn + DataFrame :=
  let df :=
    match columns df !! answer_column with
    | Some _ => df
    | None => set_column df answer_column (Some [])
    end in
  let rows_to_process :=
    filter (λ i, (start_row ≤ Z.of_nat i)%Z) (seq 0 (n_rows df)) in
  match rows_to_process with
  | [] => inr df
  | _ :: _ =>
      if use_parallel
      then inr (_batch_analyze_parallel df df (as_completed rows_to_process))
      else _batch_analyze_sequential df df rows_to_process
  end.

End analyzer.

End Analyzer.

(* ===================================================================== *)
(** ** core.py: [BioKGBuilder.build_knowledge_graph] *)
(* ===================================================================== *)

Module Core.

Section results.

(** The dictionary of [analyze_network_structure]. *)
Variable NetStats : Type.

(** A value of [results['statistics']]. *)
Inductive stat :=
| StatInt (n : Z)
| StatNetwork (s : NetStats).

(** The [results] dictionary: its fixed entry [keyword], the two nested
    dictionaries, and the entries that later stages add. *)
Record Results := mkResults {
  keyword : pystr;
  files : gmap pystr (option pystr);
  statistics : gmap pystr stat;
  entities : option (list pystr);
  node_names : option (list pystr);
  ai_summary : option pystr;
  error : option pystr
}.

(** [{'keyword': keyword, 'files': {}, 'statistics': {}}] *)
Definition initial_results (kw : pystr) : Results :=
  mkResults kw ∅ ∅ None None None None.

Definition set_file (k : pystr) (v : option pystr) (r : Results) : Results :=
  mkResults (keyword r) (<[k := v]> (files r)) (statistics r)
            (entities r) (node_names r) (ai_summary r) (error r).

Definition set_statistic (k : pystr) (v : stat) (r : Results) : Results :=
  mkResults (keyword r) (files r) (<[k := v]> (statistics r))
            (entities r) (node_names r) (ai_summary r) (error r).

Definition set_entities (v : list pystr) (r : Results) : Results :=
  mkResults (keyword r) (files r) (statistics r)
            (Some v) (node_names r) (ai_summary r) (error r).

Definition set_node_names (v : list pystr) (r : Results) : Results :=
  mkResults (keyword r) (files r) (statistics r)
            (entities r) (Some v) (ai_summary r) (error r).

Definition set_ai_summary (v : pystr) (r : Results) : Results :=
  mkResults (keyword r) (files r) (statistics r)
            (entities r) (node_names r) (Some v) (error r).

Definition set_error (v : pystr) (r : Results) : Results :=
  mkResults (keyword r) (files r) (statistics r)
            (entities r) (node_names r) (ai_summary r) (Some v).

(** The state of a run: the dictionary as it is now, and, for stating
    what a run keeps, every value it had before (latest first). *)
Record state := mkState {
  current : Results;
  earlier : list Results
}.

(** A computation over the mutable [results] that may raise: the
    dictionary keeps what was written before the exception. *)
Definition M (A : Type) : Type := state → (exn + A) * state.

Definition ret {A} (x : A) : M A := λ s, (inr x, s).

Definition bind {A B} (m : M A) (k : A → M B) : M B :=
  λ s, match m s with
       | (inr x, s') => k x s'
       | (inl e, s') => (inl e, s')
       end.

(** A call into another component. *)
Definition call {A} (outcome : exn + A) : M A := λ s, (outcome, s).

(** An assignment into [results]. *)
Definition write (f : Results → Results) : M unit :=
  λ s, (inr tt, mkState (f (current s)) (current s :: earlier s)).

(** The dictionary as it is. *)
Definition read : M Results := λ s, (inr (current s), s).

End results.

Arguments StatInt {NetStats}.
Arguments initial_results {NetStats}.
Arguments set_file {NetStats}.
Arguments set_statistic {NetStats}.
Arguments set_entities {NetStats}.
Arguments set_node_names {NetStats}.
Arguments set_ai_summary {NetStats}.
Arguments set_error {NetStats}.
Arguments current {NetStats}.
Arguments earlier {NetStats}.
Arguments mkState {NetStats}.
Arguments StatNetwork {NetStats}.
Arguments ret {NetStats A}.
Arguments bind {NetStats A B}.
Arguments call {NetStats A}.
Arguments write {NetStats}.
Arguments read {NetStats}.

#[global] Instance M_ret NetStats : MRet (M NetStats) := λ A, ret.
#[global] Instance M_bind NetStats : MBind (M NetStats) := λ A B k m, bind m k.

Section pipeline.

Variable NetStats : Type.

(** The stages [build_knowledge_graph] calls, each with the value it
    returns or the exception it raises. *)
Variable search_and_save :
  pystr → option Z → exn + (DataFrame * option pystr).
Variable batch_analyze : DataFrame → exn + DataFrame.
Variable save_results : DataFrame → pystr → exn + pystr.
Variable process_entities :
  DataFrame → exn + (DataFrame * list pystr * PyDict.t).
Variable save_processed_data : DataFrame → pystr → exn + pystr.
Variable create_full_network : DataFrame → pystr → exn + pystr.
Variable create_filtered_network :
  DataFrame → pystr → pystr → Z → option (list pystr) →
  exn + (pystr * list pystr).
Variable analyze_network_structure : DataFrame → exn + NetStats.
Variable generate_summary : list pystr → pystr → exn + pystr.
Variable generate_full_report :
  Z → Z → Z → NetStats → pystr → pystr → exn + pystr.
Variable save_results_json : Results NetStats → pystr → exn + pystr.

(** [len(df)] and [df.empty] *)
Definition len_df (df : DataFrame) : Z := Z.of_nat (n_rows df).

Definition df_empty (df : DataFrame) : bool :=
  bool_decide (n_rows df = 0) || bool_decide (columns df = ∅).

(** The body of the [try] block. *)
Definition pipeline (kw : pystr) (max_results : option Z)
    (exclude_entities : option (list pystr)) (depth : Z)
    : M NetStats unit :=
  '(df, search_file) ← call (search_and_save kw max_results);
  write (set_file (py "search_results") search_file);;
  write (set_statistic (py "total_articles") (StatInt (len_df df)));;
  if df_empty df then mret tt
  else
    df ← call (batch_analyze df);
    causal_file ← call (save_results df kw);
    write (set_file (py "causal_analysis") (Some causal_file));;
    '(processed_df, ents, similar_phrases) ← call (process_entities df);
    processed_file ← call (save_processed_data processed_df kw);
    write (set_file (py "processed_data") (Some processed_file));;
    write (set_entities ents);;
    let total_entities := Z.of_nat (length ents) in
    let unique_entities :=
      (Z.of_nat (length ents) - Z.of_nat (length similar_phrases))%Z in
    write (set_statistic (py "total_entities") (StatInt total_entities));;
    write (set_statistic (py "unique_entities") (StatInt unique_entities));;
    full_network_file ← call (create_full_network processed_df kw);
    write (set_file (py "full_network") (Some full_network_file));;
    '(filtered_network_file, names) ←
      call (create_filtered_network processed_df kw kw depth exclude_entities);
    write (set_file (py "filtered_network") (Some filtered_network_file));;
    write (set_node_names names);;
    network_stats ← call (analyze_network_structure processed_df);
    write (set_statistic (py "network_stats") (StatNetwork network_stats));;
    summary ← call (generate_summary names kw);
    write (set_ai_summary summary);;
    report_file ←
      call (generate_full_report (len_df df) total_entities unique_entities
              network_stats summary kw);
    write (set_file (py "report") (Some report_file));;
    results ← read;
    json_file ← call (save_results_json results kw);
    write (set_file (py "json_results") (Some json_file)).

(** [build_knowledge_graph(keyword, max_results, exclude_entities,
    depth)]: the [try] block, and the [except Exception] clause that
    records [str(e)] and returns the dictionary. *)
Definition run_pipeline (kw : pystr) (max_results : option Z)
    (exclude_entities : option (list pystr)) (depth : Z)
    : (exn + unit) * state NetStats :=
  pipeline kw max_results exclude_entities depth
           (mkState (initial_results kw) []).

Definition build_knowledge_graph (kw : pystr) (max_results : option Z)
    (exclude_entities : option (list pystr)) (depth : Z) : Results NetStats :=
  match run_pipeline kw max_results exclude_entities depth with
  | (inr _, s) => current s
  | (inl e, s) => set_error (exn_message e) (current s)
  end.

End pipeline.

End Core.

(* ===================================================================== *)
(** ** utils/helpers.py *)
(* ===================================================================== *)

Module Helpers.

(** [str.isalnum] on one character (code points below 256): the digits,
    the ASCII letters, and the Latin-1 letters, superscript digits and
    fractions. *)
Definition is_alnum (c : ascii) : bool :=
  let n := N_of_ascii c in
  ((48 <=? n) && (n <=? 57) || (65 <=? n) && (n <=? 90)
   || (97 <=? n) && (n <=? 122)
   || (n =? 170) || (n =? 178) || (n =? 179) || (n =? 181)
   || (n =? 185) || (n =? 186) || (188 <=? n) && (n <=? 190)
   || (192 <=? n) && (n <=? 214) || (216 <=? n) && (n <=? 246)
   || (248 <=? n) && (n <=? 255))%N.

(** [s.isalnum()]: at least one character, and all of them
    alphanumeric. *)
Definition isalnum (s : pystr) : bool :=
  negb (bool_decide (s = [])) && forallb is_alnum s.

(** The character classes of the e-mail pattern. *)
Definition is_letter (c : ascii) : bool :=
  let n := N_of_ascii c in
  ((65 <=? n) && (n <=? 90) || (97 <=? n) && (n <=? 122))%N.

Definition is_digit (c : ascii) : bool :=
  let n := N_of_ascii c in ((48 <=? n) && (n <=? 57))%N.

Definition at_sign : ascii := "@"%char.
Definition dot : ascii := "."%char.
Definition newline : ascii := "010"%char.

(** [[a-zA-Z0-9._%+-]] *)
Definition local_char (c : ascii) : bool :=
  is_letter c || is_digit c || bool_decide (c ∈ [dot; "_"; "%"; "+"; "-"]%char).

(** [[a-zA-Z0-9.-]] *)
Definition domain_char (c : ascii) : bool :=
  is_letter c || is_digit c || bool_decide (c ∈ [dot; "-"]%char).

(** A backtracking matcher for the pieces of the pattern; [k] matches
    the rest of the pattern.  [plus cls] is [cls+], [one cls] is one
    character of [cls], [lit x] the literal [x], and [at_end] is [$]:
    the end of the string, or just before a newline that ends it. *)
Fixpoint plus (cls : ascii → bool) (k : pystr → bool) (s : pystr) : bool :=
  match s with
  | [] => false
  | c :: s' => cls c && (plus cls k s' || k s')
  end.

Definition one (cls : ascii → bool) (k : pystr → bool) (s : pystr) : bool :=
  match s with
  | [] => false
  | c :: s' => cls c && k s'
  end.

Definition lit (x : ascii) (k : pystr → bool) (s : pystr) : bool :=
  one (λ c, bool_decide (c = x)) k s.

Definition at_end (s : pystr) : bool :=
  bool_decide (s = []) || bool_decide (s = [newline]).

(** [validate_email(email)]:
    [re.match(r'^[a-zA-Z0-9._%+-]+@[a-zA-Z0-9.-]+\.[a-zA-Z]{2,}$', email)]. *)
Definition validate_email (email : pystr) : bool :=
  plus local_char
    (lit at_sign
       (plus domain_char
          (lit dot (one is_letter (plus is_letter at_end))))) email.

Definition hyphen : ascii := "-"%char.
Definition underscore : ascii := "_"%char.
Definition blank : ascii := " "%char.

(** [validate_api_key(api_key)] *)
Definition validate_api_key (api_key : pystr) : bool :=
  if bool_decide (api_key = []) || (length api_key <? 20) then false
  else if negb (isalnum (PyStr.replace [underscore] []
                           (PyStr.replace [hyphen] [] api_key)))
  then false
  else true.

(** [sep.join(parts)] *)
Fixpoint join (sep : pystr) (parts : list pystr) : pystr :=
  match parts with
  | [] => []
  | [p] => p
  | p :: rest => p ++ sep ++ join sep rest
  end.

(** The characters [clean_text] keeps after joining the words:
    [ord(char) >= 32 or char in '\n\t']. *)
Definition printable (c : ascii) : bool :=
  (32 <=? N_of_ascii c)%N || bool_decide (c = "010"%char)
  || bool_decide (c = "009"%char).

(** [clean_text(text)] *)
Definition clean_text (text : pystr) : pystr :=
  match text with
  | [] => []
  | _ :: _ =>
      let text := join [blank] (PyStr.split text) in
      let text := filter (λ c, printable c = true) text in
      PyStr.strip text
  end.

(** The slice [s[:k]] for an integer [k]: a negative [k] counts from
    the end. *)
Definition slice_to (k : Z) (s : pystr) : pystr :=
  if (0 <=? k)%Z then take (Z.to_nat k) s
  else take (Z.to_nat (Z.of_nat (length s) + k)) s.

(** [s.rfind(c)] for a one-character [c]: the index of the last
    occurrence, or -1. *)
Fixpoint rfind_char (c : ascii) (s : pystr) : Z :=
  match s with
  | [] => -1
  | x :: s' =>
      let r := rfind_char c s' in
      if (0 <=? r)%Z then (r + 1)%Z
      else if decide (x = c) then 0%Z else (-1)%Z
  end.

(** [truncate_text(text, max_length, suffix)] *)
Definition truncate_text (text : pystr) (max_length : Z) (suffix : pystr)
    : pystr :=
  if (Z.of_nat (length text) <=? max_length)%Z then text
  else
    let truncated := slice_to (max_length - Z.of_nat (length suffix)) text in
    let last_space := rfind_char blank truncated in
    let truncated :=
      if (0 <? last_space)%Z then slice_to last_space truncated
      else truncated in
    truncated ++ suffix.

(** A word character of the regex class [\w]: alphanumeric or the
    underscore. *)
Definition is_word (c : ascii) : bool :=
  is_alnum c || bool_decide (c = underscore).

(** [re.sub(r'[-\s]+', '-', s)]: every maximal run of hyphens and
    whitespace becomes one hyphen.  [in_run] tells that the previous
    character belonged to a run. *)
Fixpoint collapse_runs (s : pystr) (in_run : bool) : pystr :=
  match s with
  | [] => []
  | c :: s' =>
      if bool_decide (c = hyphen) || PyStr.is_space c
      then if in_run then collapse_runs s' true
           else hyphen :: collapse_runs s' true
      else c :: collapse_runs s' false
  end.

(** The directory name [create_output_directory] derives from the
    keyword: [re.sub(r'[^\w\s-]', '', keyword).strip()], then the runs
    collapsed. *)
Definition clean_keyword (keyword : pystr) : pystr :=
  let kept :=
    filter (λ c, is_word c = true ∨ PyStr.is_space c = true ∨ c = hyphen)
           keyword in
  collapse_runs (PyStr.strip kept) false.

Definition slash : ascii := "/"%char.

(** [os.path.join(a, b)] on a POSIX system. *)
Definition path_join (a b : pystr) : pystr :=
  if PyStr.startswith [slash] b then b
  else if bool_decide (a = []) || bool_decide (last a = Some slash) then a ++ b
  else a ++ [slash] ++ b.

(** [create_output_directory(base_dir, keyword)]: the path it creates
    and returns. *)
Definition create_output_directory (base_dir keyword : pystr) : pystr :=
  path_join base_dir (clean_keyword keyword).

End Helpers.

(* ===================================================================== *)
(** ** generator.py: conversion of results for JSON *)
(* ===================================================================== *)

Module Generator.

Set Warnings "-register-all".

Section values.

(** Floating-point numbers, dictionary keys, and the objects of any
    other class, with the string [str(obj)] gives for them. *)
Context {F K O : Type}.
Variable str_of : O → pystr.

(** A Python object as [_make_serializable] tells them apart. *)
Inductive value :=
| VNone
| VBool (b : bool)
| VInt (n : Z)
| VFloat (x : F)
| VStr (s : pystr)
| VDict (items : list (K * value))
| VList (elems : list value)
| VTuple (elems : list value)
| VOther (o : O).

(** [_make_serializable(obj)] *)
Fixpoint _make_serializable (obj : value) : value :=
  match obj with
  | VNone | VBool _ | VInt _ | VFloat _ | VStr _ => obj
  | VDict items =>
      VDict (map (λ kv, match kv with
                        | (k, v) => (k, _make_serializable v)
                        end) items)
  | VList elems | VTuple elems => VList (map _make_serializable elems)
  | VOther o => VStr (str_of o)
  end.


(** The keys of the dictionaries of a value, outermost first. *)
Fixpoint keys (obj : value) : list K :=
  match obj with
  | VDict items =>
      flat_map (λ kv, match kv with (k, v) => k :: keys v end) items
  | VList elems | VTuple elems => flat_map keys elems
  | _ => []
  end.

End values.

Arguments value : clear implicits.

End Generator.

(* ===================================================================== *)
(** ** Specification vocabulary *)
(* ===================================================================== *)

(** A well-formed group [g] with sides [a] and [b]: open-paren, text
    without comma, comma, optional whitespace [w], text without
    close-paren, close-paren. *)
Definition group_shape (g a b : pystr) : Prop :=
  ∃ w : pystr,
    g = [Regex.lparen] ++ a ++ [Regex.comma] ++ w ++ b ++ [Regex.rparen] ∧
    a ≠ [] ∧ (Regex.comma ∉ a) ∧
    Forall (λ c, PyStr.is_space c = true) w ∧
    b ≠ [] ∧ (Regex.rparen ∉ b).

(** The left-to-right sequence of the well-formed groups of a string:
    a position where no group starts is stepped over, a group is taken
    whole, and reading goes on behind its close-paren. *)
Inductive extraction : pystr → list (pystr * pystr) → Prop :=
| extraction_end : extraction [] []
| extraction_skip c s l :
    (∀ g a b tail, group_shape g a b → c :: s ≠ g ++ tail) →
    extraction s l →
    extraction (c :: s) l
| extraction_group g a b tail l :
    group_shape g a b →
    extraction tail l →
    extraction (g ++ tail) ((PyStr.strip a, PyStr.strip b) :: l).

(** [sub] occurs in [s]. *)
Definition is_substring (sub s : pystr) : Prop :=
  ∃ pre post, s = pre ++ sub ++ post.

(** [e] is one side of a pair extracted from a cell of the column. *)
Definition entity_of_column (col : list cell) (e : pystr) : Prop :=
  ∃ value p, value ∈ fillna_str <$> col ∧ p ∈ extract_pairs value ∧
             (e = p.1 ∨ e = p.2).

(** The map sends [k] to [v]. *)
Definition maps_to (d : PyDict.t) (k v : pystr) : Prop :=
  PyDict.get k d = Some v.

(** Whether the configured strategy judges entities [i] and [j] of the
    list similar. *)
Definition judged_similar (ratio_exceeds_threshold : nat → nat → bool)
    (model : option (list pystr → nat → nat → bool))
    (entities : list pystr) (i j : nat) : bool :=
  match model with
  | Some cos_sim_exceeds => cos_sim_exceeds entities i j
  | None =>
      Processor._is_similar ratio_exceeds_threshold
        (entities !!! i) (entities !!! j)
  end.

(** The title of the edge between [u] and [v], if the graph has one. *)
Definition edge_title (G : Visualizer.Graph) (u v : pystr) : option pystr :=
  Visualizer.adj G !! u ≫= λ nbrs, nbrs !! v.

(** A triple is rejected: a side is empty, or a side contains an
    excluded string. *)
Definition rejected (exclude_entities : list pystr) (entity_a entity_b : pystr)
    : Prop :=
  entity_a = [] ∨ entity_b = [] ∨
  ∃ exc, exc ∈ exclude_entities ∧
         (is_substring exc entity_a ∨ is_substring exc entity_b).

(** [n] is within [k] hops of a seed: a seed itself, or a neighbour of
    a node of the graph that is within [k - 1] hops. *)
Inductive within (G : Visualizer.Graph) (seeds : gset pystr)
    : nat → pystr → Prop :=
| within_seed k n : n ∈ seeds → within G seeds k n
| within_hop k u n :
    within G seeds k u →
    u ∈ dom (Visualizer.nodes G) →
    n ∈ Visualizer.neighbors G u →
    within G seeds (S k) n.

(** The label of [n] contains the keyword, case ignored. *)
Definition label_matches (G : Visualizer.Graph) (keyword n : pystr) : Prop :=
  ∃ attr, Visualizer.nodes G !! n = Some attr ∧
          is_substring (PyStr.lower keyword)
                       (PyStr.lower (Visualizer.label_of attr)).

(** The path graph A - B - C, each node labelled with its name. *)
Definition path_ABC : Visualizer.Graph :=
  Visualizer.add_edge (py "B") (py "C") (py "t2")
    (Visualizer.add_edge (py "A") (py "B") (py "t1")
       (Visualizer.add_node (py "C") (py "C")
          (Visualizer.add_node (py "B") (py "B")
             (Visualizer.add_node (py "A") (py "A")
                Visualizer.empty_graph)))).

(** Every entry of [r] is an entry of [r'], with the same value. *)
Definition kept {NetStats} (r r' : Core.Results NetStats) : Prop :=
  Core.keyword _ r' = Core.keyword _ r ∧
  Core.files _ r ⊆ Core.files _ r' ∧
  Core.statistics _ r ⊆ Core.statistics _ r' ∧
  (∀ x, Core.entities _ r = Some x → Core.entities _ r' = Some x) ∧
  (∀ x, Core.node_names _ r = Some x → Core.node_names _ r' = Some x) ∧
  (∀ x, Core.ai_summary _ r = Some x → Core.ai_summary _ r' = Some x) ∧
  (∀ x, Core.error _ r = Some x → Core.error _ r' = Some x).


(* ===================================================================== *)
(** ** Further notions: graphs the loops build, accepted addresses *)
(* ===================================================================== *)

(** The shape of a graph built by the loops: every node has an entry in
    the adjacency and the other way round, every edge is stored under
    both ends with one title, its ends are nodes, every node is
    labelled with its own name and has at least one edge. *)
Definition built_graph (G : Visualizer.Graph) : Prop :=
  dom (Visualizer.adj G) = dom (Visualizer.nodes G) ∧
  (∀ u v t, edge_title G u v = Some t → edge_title G v u = Some t) ∧
  (∀ u v t, edge_title G u v = Some t →
            is_Some (Visualizer.nodes G !! u) ∧
            is_Some (Visualizer.nodes G !! v)) ∧
  (∀ n attr, Visualizer.nodes G !! n = Some attr → attr = Some n) ∧
  (∀ n, is_Some (Visualizer.nodes G !! n) →
        ∃ v t, edge_title G n v = Some t).

(** No string of the exclusion list occurs in [n]. *)
Definition clean (exclude_entities : list pystr) (n : pystr) : Prop :=
  ∀ exc, exc ∈ exclude_entities → ¬ is_substring exc n.

(** The shape of an accepted e-mail address. *)
Definition address_shape (email local domain tld tail : pystr) : Prop :=
  email = local ++ [Helpers.at_sign] ++ domain ++ [Helpers.dot] ++ tld ++ tail ∧
  local ≠ [] ∧ Forall (λ c, Helpers.local_char c = true) local ∧
  domain ≠ [] ∧ Forall (λ c, Helpers.domain_char c = true) domain ∧
  2 ≤ length tld ∧ Forall (λ c, Helpers.is_letter c = true) tld ∧
  (tail = [] ∨ tail = [Helpers.newline]).

(* ===================================================================== *)
(** ** Entity-pair extraction: proofs *)
(* ===================================================================== *)

Section regex_facts.
Import Regex.

Lemma greedy_Some {R} cls (k : pystr → nat → option R) s pos r :
  greedy cls k s pos = Some r →
  ∃ i, i ≤ length s ∧
       Forall (λ c, class_matches cls c = true) (take i s) ∧
       k (drop i s) (pos + i) = Some r.
Proof.
  revert pos. induction s as [|c s IH]; intros pos H; simpl in H.
  - exists 0. rewrite Nat.add_0_r. auto.
  - destruct (class_matches cls c) eqn:Hc.
    + destruct (greedy cls k s (S pos)) as [r'|] eqn:Hg.
      * inversion H; subst r'. destruct (IH _ Hg) as (i & Hi & Hall & Hk).
        exists (S i). simpl. repeat split; [lia | by constructor |].
        by replace (pos + S i) with (S pos + i) by lia.
      * exists 0. rewrite Nat.add_0_r. simpl. auto with lia.
    + exists 0. rewrite Nat.add_0_r. simpl. auto with lia.
Qed.

Lemma greedy_is_Some {R} cls (k : pystr → nat → option R) s pos i :
  i ≤ length s →
  Forall (λ c, class_matches cls c = true) (take i s) →
  is_Some (k (drop i s) (pos + i)) →
  is_Some (greedy cls k s pos).
Proof.
  revert pos i. induction s as [|c s IH]; intros pos i Hi Hall Hk.
  - simpl in Hi. assert (i = 0) as -> by lia.
    by rewrite Nat.add_0_r in Hk.
  - simpl. destruct i as [|i].
    + rewrite Nat.add_0_r in Hk. simpl in Hk.
      destruct (class_matches cls c); [|done].
      by destruct (greedy cls k s (S pos)).
    + simpl in *. apply Forall_cons in Hall as [-> Hall].
      replace (pos + S i) with (S pos + i) in Hk by lia.
      destruct (IH (S pos) i ltac:(lia) Hall Hk) as [r ->]. done.
Qed.

(** What a successful match of the pattern at offset [pos] looks like. *)
Lemma match_pattern_sound s pos e m :
  match_here pattern s pos no_marks = Some (e, m) →
  ∃ a w b tail,
    s = [lparen] ++ a ++ [comma] ++ w ++ b ++ [rparen] ++ tail ∧
    a ≠ [] ∧ (comma ∉ a) ∧
    Forall (λ c, PyStr.is_space c = true) w ∧
    b ≠ [] ∧ (rparen ∉ b) ∧
    e = pos + (length a + length w + length b + 3) ∧
    closed m =
      [ (2, (pos + 2 + length a + length w,
             pos + 2 + length a + length w + length b));
        (1, (pos + 1, pos + 1 + length a)) ].
Proof.
  unfold pattern. simpl. intros H.
  destruct s as [|c0 s]; [done|].
  destruct (bool_decide (c0 = lparen)) eqn:Hc0; [|done].
  apply bool_decide_eq_true in Hc0 as ->.
  destruct s as [|c1 s]; [done|].
  destruct (bool_decide (c1 = comma)) eqn:Hc1; [done|]. simpl in H.
  apply bool_decide_eq_false in Hc1.
  apply greedy_Some in H as (i & Hi & Ha & H).
  destruct (drop i s) as [|c2 s2] eqn:Hs2; [done|].
  destruct (bool_decide (c2 = comma)) eqn:Hc2; [|done].
  apply bool_decide_eq_true in Hc2 as ->.
  apply greedy_Some in H as (j & Hj & Hw & H).
  destruct (drop j s2) as [|c3 s3] eqn:Hs3; [done|].
  destruct (bool_decide (c3 = rparen)) eqn:Hc3; [done|]. simpl in H.
  apply bool_decide_eq_false in Hc3.
  apply greedy_Some in H as (l & Hl & Hb & H).
  destruct (drop l s3) as [|c4 tail] eqn:Hs4; [done|].
  destruct (bool_decide (c4 = rparen)) eqn:Hc4; [|done].
  apply bool_decide_eq_true in Hc4 as ->.
  inversion H; subst e m; clear H.
  exists (c1 :: take i s), (take j s2), (c3 :: take l s3), tail.
  assert (Hnot : ∀ (x : ascii) t, Forall (λ c, negb (bool_decide (c = x)) = true) t → x ∉ t).
  { intros x t Hall Hin. rewrite Forall_forall in Hall.
    specialize (Hall _ Hin). by rewrite bool_decide_eq_true_2 in Hall. }
  repeat split.
  - simpl. do 2 f_equal. rewrite <- (take_drop i s) at 1. f_equal.
    rewrite Hs2. simpl. f_equal. rewrite <- (take_drop j s2) at 1. f_equal.
    rewrite Hs3. simpl. f_equal. rewrite <- (take_drop l s3) at 1. f_equal.
    by rewrite Hs4.
  - done.
  - intros [?|?]%elem_of_cons; [congruence|]. by apply (Hnot _ _ Ha).
  - done.
  - done.
  - intros [?|?]%elem_of_cons; [congruence|]. by apply (Hnot _ _ Hb).
  - rewrite !length_cons, !length_take. lia.
  - simpl. rewrite !length_take. repeat f_equal; lia.
Qed.

(** Every well-formed group at the head of [s] is matched. *)
Lemma match_pattern_complete a w b tail pos :
  a ≠ [] → comma ∉ a →
  Forall (λ c, PyStr.is_space c = true) w →
  b ≠ [] → rparen ∉ b →
  is_Some (match_here pattern
             ([lparen] ++ a ++ [comma] ++ w ++ b ++ [rparen] ++ tail)
             pos no_marks).
Proof.
  intros Ha0 Ha Hw Hb0 Hb.
  assert (Hcls : ∀ (x : ascii) t, x ∉ t →
            Forall (λ c, class_matches (NotChar x) c = true) t).
  { intros x t Hx. apply Forall_forall. intros c Hc. simpl.
    rewrite bool_decide_eq_false_2; [done|]. by intros ->. }
  destruct a as [|c1 a]; [done|]. destruct b as [|c3 b]; [done|].
  apply not_elem_of_cons in Ha as [Hc1 Ha].
  apply not_elem_of_cons in Hb as [Hc3 Hb].
  unfold pattern. simpl.
  rewrite (bool_decide_eq_false_2 (c1 = comma)) by congruence. simpl.
  apply (greedy_is_Some _ _ _ _ (length a)).
  { rewrite length_app. lia. }
  { rewrite take_app_length. by apply Hcls. }
  rewrite drop_app_length. simpl.
  apply (greedy_is_Some _ _ _ _ (length w)).
  { rewrite length_app. lia. }
  { by rewrite take_app_length. }
  rewrite drop_app_length. simpl.
  rewrite (bool_decide_eq_false_2 (c3 = rparen)) by congruence. simpl.
  apply (greedy_is_Some _ _ _ _ (length b)).
  { rewrite length_app. lia. }
  { rewrite take_app_length. by apply Hcls. }
  rewrite drop_app_length. by simpl.
Qed.

End regex_facts.

Section extraction_facts.
Import Regex.

Local Ltac len_lia :=
  repeat first [rewrite length_app | rewrite length_cons | progress simpl];
  lia.

Lemma first_split_unique (c : ascii) p1 q1 p2 q2 :
  c ∉ p1 → c ∉ p2 → p1 ++ c :: q1 = p2 ++ c :: q2 → p1 = p2 ∧ q1 = q2.
Proof.
  revert p2. induction p1 as [|x p1 IH]; intros [|y p2] H1 H2 Heq;
    simpl in Heq.
  - by inversion Heq.
  - inversion Heq; subst. exfalso. apply H2. by left.
  - inversion Heq; subst. exfalso. apply H1. by left.
  - inversion Heq; subst.
    apply not_elem_of_cons in H1 as [_ H1].
    apply not_elem_of_cons in H2 as [_ H2].
    destruct (IH _ H1 H2 ltac:(done)) as [-> ->]. done.
Qed.

Lemma lstrip_app_space w b :
  Forall (λ c, PyStr.is_space c = true) w →
  PyStr.lstrip (w ++ b) = PyStr.lstrip b.
Proof. induction 1 as [|c w Hc _ IH]; simpl; [done|]. by rewrite Hc. Qed.

Lemma strip_app_space w b :
  Forall (λ c, PyStr.is_space c = true) w →
  PyStr.strip (w ++ b) = PyStr.strip b.
Proof. intros Hw. unfold PyStr.strip. by rewrite lstrip_app_space. Qed.

Lemma space_not_rparen w :
  Forall (λ c, PyStr.is_space c = true) w → rparen ∉ w.
Proof.
  intros Hw Hin. rewrite Forall_forall in Hw. by specialize (Hw _ Hin).
Qed.

(** The group at the head of a string is unique up to where the optional
    whitespace is cut, which trimming forgets. *)
Lemma group_shape_unique g a b tail g' a' b' tail' :
  group_shape g a b → group_shape g' a' b' →
  g ++ tail = g' ++ tail' →
  g = g' ∧ a = a' ∧ PyStr.strip b = PyStr.strip b' ∧ tail = tail'.
Proof.
  intros (w & -> & _ & Ha & Hw & _ & Hb) (w' & -> & _ & Ha' & Hw' & _ & Hb') Heq.
  simpl in Heq. rewrite <- !app_assoc in Heq. simpl in Heq.
  inversion Heq as [Heq1]; clear Heq.
  apply first_split_unique in Heq1 as [-> Heq2]; [|done..].
  assert (Heq2' : (w ++ b) ++ rparen :: tail = (w' ++ b') ++ rparen :: tail').
  { repeat rewrite <- app_assoc in Heq2. repeat rewrite <- app_assoc.
    exact Heq2. }
  clear Heq2. apply first_split_unique in Heq2' as [Heq3 ->].
  - repeat split; [|].
    + simpl. do 2 f_equal. rewrite !app_assoc. by rewrite Heq3.
    + rewrite <- (strip_app_space w b), <- (strip_app_space w' b') by done.
      by rewrite Heq3.
  - intros [?|?]%elem_of_app; [|done]. by apply (space_not_rparen w).
  - intros [?|?]%elem_of_app; [|done]. by apply (space_not_rparen w').
Qed.

Lemma scan_skip p subject rest pos skip :
  skip ≤ length rest →
  scan p subject rest pos skip = scan p subject (drop skip rest) (pos + skip) 0.
Proof.
  revert rest pos. induction skip as [|k IH]; intros rest pos Hk.
  - by rewrite drop_0, Nat.add_0_r.
  - destruct rest as [|c rest]; simpl in Hk; [lia|]. simpl.
    rewrite IH by lia. f_equal. lia.
Qed.

Lemma scan_match p subject rest pos e m :
  match_here p rest pos no_marks = Some (e, m) →
  pos < e → e - pos ≤ length rest →
  scan p subject rest pos 0 =
    (group subject m 1, group subject m 2) ::
    scan p subject (drop (e - pos) rest) e 0.
Proof.
  intros Hm Hlt Hle. destruct rest as [|c rest]; simpl in Hle; [lia|].
  simpl scan. rewrite Hm. f_equal.
  rewrite scan_skip by lia. f_equal; [|lia].
  destruct (e - pos) as [|n] eqn:Hn; [lia|].
  simpl. by rewrite Nat.sub_0_r.
Qed.

Lemma scan_no_match p subject c rest pos :
  match_here p (c :: rest) pos no_marks = None →
  scan p subject (c :: rest) pos 0 = scan p subject rest (S pos) 0.
Proof. intros Hm. simpl scan. by rewrite Hm. Qed.

Lemma slice_app (pre x post : pystr) n :
  n = length pre →
  take (length x) (drop n (pre ++ x ++ post)) = x.
Proof. intros ->. by rewrite drop_app_length, take_app_length. Qed.

(** The scan of the subject [pre ++ s] from offset [length pre] on
    yields the groups of [s]. *)
Lemma scan_extraction pre s l :
  extraction s l →
  map (λ mt, (PyStr.strip mt.1, PyStr.strip mt.2))
      (scan pattern (pre ++ s) s (length pre) 0) = l.
Proof.
  intros Hex. revert pre.
  induction Hex as [|c s l Hno _ IH|g a b tail l Hg _ IH]; intros pre.
  - done.
  - destruct (match_here pattern (c :: s) (length pre) no_marks)
      as [[e m]|] eqn:Hm.
    + apply match_pattern_sound in Hm
        as (a & w & b & tail & Hs & Ha0 & Ha & Hw & Hb0 & Hb & _).
      exfalso. apply (Hno ([lparen] ++ a ++ [comma] ++ w ++ b ++ [rparen]) a b tail).
      * by exists w.
      * rewrite Hs. by repeat rewrite <- app_assoc.
    + rewrite scan_no_match by done.
      specialize (IH (pre ++ [c])).
      rewrite <- app_assoc, length_app in IH. simpl in IH.
      by rewrite Nat.add_1_r in IH.
  - pose proof Hg as (w & Hgeq & Ha0 & Ha & Hw & Hb0 & Hb).
    destruct (match_pattern_complete a w b tail (length pre) Ha0 Ha Hw Hb0 Hb)
      as [[e m] Hm].
    assert (Hrest : g ++ tail =
              [lparen] ++ a ++ [comma] ++ w ++ b ++ [rparen] ++ tail).
    { rewrite Hgeq. by repeat rewrite <- app_assoc. }
    rewrite <- Hrest in Hm.
    pose proof Hm as Hm'.
    apply match_pattern_sound in Hm'
      as (a' & w' & b' & tail' & Hs & Ha0' & Ha' & Hw' & Hb0' & Hb' & He & Hcl).
    assert (Hg' : group_shape
              ([lparen] ++ a' ++ [comma] ++ w' ++ b' ++ [rparen]) a' b')
      by by exists w'.
    destruct (group_shape_unique g a b tail _ a' b' tail' Hg Hg')
      as (Hgg & <- & Hstrip & <-).
    { rewrite Hs. by repeat rewrite <- app_assoc. }
    assert (Hlen : length g = length a + length w' + length b' + 3).
    { rewrite Hgg. len_lia. }
    rewrite (scan_match _ _ _ _ e m Hm) by (rewrite ?length_app; lia).
    replace (e - length pre) with (length g) by lia.
    rewrite drop_app_length. simpl map. f_equal.
    + unfold group. rewrite Hcl. simpl. f_equal.
      * replace (length pre + 1 + length a - (length pre + 1))
          with (length a) by lia.
        rewrite Hgg. f_equal.
        replace (pre ++ ([lparen] ++ a ++ [comma] ++ w' ++ b' ++ [rparen]) ++ tail)
          with ((pre ++ [lparen]) ++ a ++ ([comma] ++ w' ++ b' ++ [rparen] ++ tail))
          by (by repeat rewrite <- app_assoc).
        apply slice_app. len_lia.
      * rewrite Hstrip. f_equal.
        replace (length pre + 2 + length a + length w' + length b' -
                 (length pre + 2 + length a + length w'))
          with (length b') by lia.
        rewrite Hgg.
        replace (pre ++ ([lparen] ++ a ++ [comma] ++ w' ++ b' ++ [rparen]) ++ tail)
          with ((pre ++ [lparen] ++ a ++ [comma] ++ w') ++ b' ++ ([rparen] ++ tail))
          by (by repeat rewrite <- app_assoc).
        apply slice_app. len_lia.
    + specialize (IH (pre ++ g)).
      rewrite <- app_assoc, length_app in IH.
      replace e with (length pre + length g) by lia. done.
Qed.

Lemma extraction_total s : ∃ l, extraction s l.
Proof.
  induction s as [s IH] using (induction_ltof1 _ (@length ascii)).
  unfold ltof in IH.
  destruct s as [|c s]; [exists []; constructor|].
  destruct (match_here pattern (c :: s) 0 no_marks) as [[e m]|] eqn:Hm.
  - apply match_pattern_sound in Hm
      as (a & w & b & tail & Hs & Ha0 & Ha & Hw & Hb0 & Hb & _).
    destruct (IH tail) as [l Hl].
    { rewrite Hs. len_lia. }
    exists ((PyStr.strip a, PyStr.strip b) :: l).
    replace (c :: s)
      with (([lparen] ++ a ++ [comma] ++ w ++ b ++ [rparen]) ++ tail)
      by (rewrite Hs; by repeat rewrite <- app_assoc).
    apply extraction_group; [by exists w|done].
  - destruct (IH s) as [l Hl]; [simpl; lia|].
    exists l. apply extraction_skip; [|done].
    intros g a b tail (w & -> & Ha0 & Ha & Hw & Hb0 & Hb) Heq.
    destruct (match_pattern_complete a w b tail 0 Ha0 Ha Hw Hb0 Hb) as [r Hr].
    rewrite Heq in Hm. repeat rewrite <- app_assoc in Hm. congruence.
Qed.

Lemma extraction_extract_pairs s l :
  extraction s l ↔ extract_pairs s = l.
Proof.
  split.
  - intros H. apply (scan_extraction []) in H. exact H.
  - intros <-. destruct (extraction_total s) as [l Hl].
    pose proof (scan_extraction [] _ _ Hl) as <-. exact Hl.
Qed.

Lemma no_group_extraction s :
  (∀ pre g a b tail, group_shape g a b → s ≠ pre ++ g ++ tail) →
  extraction s [].
Proof.
  induction s as [|c s IH]; intros Hno; [constructor|].
  apply extraction_skip.
  - intros g a b tail Hg. apply (Hno [] g a b tail Hg).
  - apply IH. intros pre g a b tail Hg Heq.
    apply (Hno (c :: pre) g a b tail Hg). by rewrite Heq.
Qed.

End extraction_facts.

(** C1.  Entity-pair extraction returns exactly the left-to-right
    sequence of the well-formed groups [(A, B)] of its input, each side
    trimmed: a list is the [extraction] of a string if and only if it is
    what [extract_pairs] returns.  A string with no well-formed group
    anywhere yields the empty list, the two-group example of the
    specification yields its two pairs, and malformed groups (a side
    missing, no close-paren) are stepped over.  [extract_pairs] is a
    total function: nothing is raised on any input. *)
Theorem extract_pairs_spec :
  (∀ s l, extraction s l ↔ extract_pairs s = l) ∧
  (∀ s, (∀ pre g a b tail, group_shape g a b → s ≠ pre ++ g ++ tail) →
        extract_pairs s = []) ∧
  extract_pairs (py "(Gene1, Protein2) and (Protein2, Pathway3)") =
    [ (py "Gene1", py "Protein2"); (py "Protein2", py "Pathway3") ] ∧
  extract_pairs (py "(Gene1) and (Gene3,) and (Gene4, ") = [].
Proof.
  split; [exact extraction_extract_pairs|split; [|split]].
  - intros s Hno. apply extraction_extract_pairs.
    by apply no_group_extraction.
  - by vm_compute.
  - by vm_compute.
Qed.

Lemma extract_pairs_spec_witness :
  extract_pairs (py "TP53 regulates (apoptosis) in vivo") = [].
Proof.
  apply (proj1 (proj2 extract_pairs_spec)).
  intros pre g a b tail (w & -> & _) Heq.
  assert (Hin : Regex.comma ∈ py "TP53 regulates (apoptosis) in vivo").
  { rewrite Heq. set_solver. }
  revert Hin. apply (bool_decide_unpack _). by vm_compute.
Defined.

(* ===================================================================== *)
(** ** String facts *)
(* ===================================================================== *)

Section string_facts.

Lemma startswith_prefix p s :
  PyStr.startswith p s = true ↔ ∃ post, s = p ++ post.
Proof.
  revert s. induction p as [|a p IH]; intros s; simpl.
  - split; [by exists s|done].
  - destruct s as [|b s].
    + split; [done|]. by intros [post ?].
    + destruct (decide (a = b)) as [->|Hne].
      * rewrite IH. split; intros [post Hp]; exists post.
        -- by rewrite Hp.
        -- by inversion Hp.
      * split; [done|]. intros [post Hp]. by inversion Hp.
Qed.

Lemma contains_substring sub s :
  PyStr.contains sub s = true ↔ is_substring sub s.
Proof.
  induction s as [|c s IH].
  - simpl. rewrite orb_false_r, startswith_prefix. split.
    + intros [post ->]. by exists [], post.
    + intros (pre & post & H). destruct pre; [by exists post|done].
  - simpl. rewrite orb_true_iff, IH, startswith_prefix. split.
    + intros [[post ->]|(pre & post & ->)].
      * by exists [], post.
      * by exists (c :: pre), post.
    + intros ([|x pre] & post & H).
      * left. by exists post.
      * right. inversion H; subst. by exists pre, post.
Qed.

Lemma lstrip_idemp s : PyStr.lstrip (PyStr.lstrip s) = PyStr.lstrip s.
Proof.
  induction s as [|c s IH]; simpl; [done|].
  destruct (PyStr.is_space c) eqn:Hc; [done|]. simpl. by rewrite Hc.
Qed.

Lemma lstrip_suffix s : ∃ w, s = w ++ PyStr.lstrip s.
Proof.
  induction s as [|c s [w IH]]; simpl; [by exists []|].
  destruct (PyStr.is_space c).
  - exists (c :: w). simpl. by rewrite <- IH.
  - by exists [].
Qed.

Lemma lstrip_fixed_prefix s t :
  PyStr.lstrip (s ++ t) = s ++ t → PyStr.lstrip s = s.
Proof.
  destruct s as [|c s]; simpl; [done|].
  destruct (PyStr.is_space c); [|done].
  intros H. pose proof (lstrip_suffix (s ++ t)) as [w Hw].
  rewrite H in Hw. apply (f_equal length) in Hw. simpl in Hw.
  rewrite ?length_app in Hw. simpl in Hw. rewrite ?length_app in Hw. lia.
Qed.

(** A trimmed string is not changed by trimming it again. *)
Lemma strip_idemp s : PyStr.strip (PyStr.strip s) = PyStr.strip s.
Proof.
  unfold PyStr.strip, PyStr.rstrip.
  set (y := PyStr.lstrip s).
  assert (Hy : PyStr.lstrip y = y) by apply lstrip_idemp.
  destruct (lstrip_suffix (rev y)) as [w Hw].
  assert (Hpre : y = rev (PyStr.lstrip (rev y)) ++ rev w).
  { rewrite <- rev_app_distr, <- Hw. by rewrite rev_involutive. }
  assert (Hz : PyStr.lstrip (rev (PyStr.lstrip (rev y)))
               = rev (PyStr.lstrip (rev y))).
  { apply (lstrip_fixed_prefix _ (rev w)). by rewrite <- Hpre. }
  rewrite Hz. by rewrite rev_involutive, lstrip_idemp.
Qed.

End string_facts.

#[global] Instance pystr_le_total : Total PyStr.le.
Proof. intros a b. unfold PyStr.le. apply total, _. Qed.

#[global] Instance pystr_le_trans : Transitive PyStr.le.
Proof. intros a b c. unfold PyStr.le. apply transitivity. Qed.

(* ===================================================================== *)
(** ** [extract_entities]: proofs *)
(* ===================================================================== *)

Section entities_facts.
Import Processor.

Lemma elem_of_extract_pairs p value :
  p ∈ extract_pairs value ↔
  ∃ mt, mt ∈ Regex.findall Regex.pattern value ∧
        p = (PyStr.strip mt.1, PyStr.strip mt.2).
Proof.
  unfold extract_pairs. rewrite list_elem_of_fmap. naive_solver.
Qed.

Lemma elem_of_pair_fold (ms : list (pystr * pystr)) (acc : gset pystr) e :
  e ∈ foldl (λ (acc : gset pystr) mt,
               acc ∪ list_to_set [PyStr.strip mt.1; PyStr.strip mt.2]) acc ms
  ↔ e ∈ acc ∨ ∃ mt, mt ∈ ms ∧ (e = PyStr.strip mt.1 ∨ e = PyStr.strip mt.2).
Proof.
  revert acc. induction ms as [|m ms IH]; intros acc; simpl.
  - split; [by left|]. intros [?|(mt & Hmt & _)]; [done|]. by inversion Hmt.
  - rewrite IH. split.
    + intros [Hin|(mt & Hmt & He)].
      * apply elem_of_union in Hin as [?|Hin]; [by left|].
        right. exists m. split; [by left|]. set_solver.
      * right. exists mt. split; [by right|done].
    + intros [?|(mt & Hmt & He)]; [left; set_solver|].
      apply elem_of_cons in Hmt as [->|Hmt].
      * left. set_solver.
      * right. by exists mt.
Qed.

Lemma elem_of_value_fold (values : list pystr) (acc : gset pystr) e :
  e ∈ foldl (λ (acc : gset pystr) value,
               foldl (λ (acc : gset pystr) mt,
                        acc ∪ list_to_set [PyStr.strip mt.1; PyStr.strip mt.2])
                     acc (Regex.findall Regex.pattern value)) acc values
  ↔ e ∈ acc ∨ ∃ value p, value ∈ values ∧ p ∈ extract_pairs value ∧
                          (e = p.1 ∨ e = p.2).
Proof.
  revert acc. induction values as [|v values IH]; intros acc; simpl.
  - split; [by left|]. intros [?|(value & p & Hv & _)]; [done|].
    by inversion Hv.
  - rewrite IH, elem_of_pair_fold. split.
    + intros [[?|(mt & Hmt & He)]|(value & p & Hv & Hp & He)].
      * by left.
      * right. exists v, (PyStr.strip mt.1, PyStr.strip mt.2).
        split; [by left|]. split; [|done].
        apply elem_of_extract_pairs. by exists mt.
      * right. exists value, p. split; [by right|done].
    + intros [?|(value & p & Hv & Hp & He)]; [by left; left|].
      apply elem_of_cons in Hv as [->|Hv].
      * left. right. apply elem_of_extract_pairs in Hp as (mt & Hmt & ->).
        by exists mt.
      * right. by exists value, p.
Qed.

(** The members of the result: the non-empty sides of the pairs of the
    column. *)
Lemma elem_of_extract_entities df column e :
  e ∈ extract_entities df column ↔
  e ≠ [] ∧ ∃ col, columns df !! column = Some col ∧ entity_of_column col e.
Proof.
  unfold extract_entities, sorted, entity_of_column.
  destruct (columns df !! column) as [col|].
  - rewrite merge_sort_Permutation, list_elem_of_filter, elem_of_elements.
    rewrite elem_of_value_fold. split.
    + intros [Hne [?|H]]; [set_solver|]. split; [done|]. by exists col.
    + intros [Hne (col' & Heq & H)]. inversion Heq; subst col'.
      split; [done|]. by right.
  - split; [by inversion 1|]. by intros [_ (col & ? & _)].
Qed.

Lemma extract_entities_NoDup df column : NoDup (extract_entities df column).
Proof.
  unfold extract_entities, sorted.
  destruct (columns df !! column); [|constructor].
  rewrite merge_sort_Permutation. apply NoDup_filter, NoDup_elements.
Qed.

Lemma extract_entities_sorted df column :
  StronglySorted PyStr.le (extract_entities df column).
Proof.
  unfold extract_entities, sorted.
  destruct (columns df !! column); [|constructor].
  apply (StronglySorted_merge_sort _).
Qed.

Lemma entity_of_column_trimmed col e :
  entity_of_column col e → PyStr.strip e = e.
Proof.
  intros (value & p & _ & Hp & He).
  apply elem_of_extract_pairs in Hp as (mt & _ & ->).
  destruct He as [->| ->]; simpl; apply strip_idemp.
Qed.

(** The result depends on the set of entities of the column only. *)
Lemma extract_entities_ext df df' column col col' :
  columns df !! column = Some col →
  columns df' !! column = Some col' →
  (∀ e, entity_of_column col e ↔ entity_of_column col' e) →
  extract_entities df' column = extract_entities df column.
Proof.
  intros Hc Hc' Hiff. unfold extract_entities. rewrite Hc, Hc'.
  do 3 f_equal. apply set_eq. intros e.
  rewrite !elem_of_value_fold. specialize (Hiff e).
  unfold entity_of_column in Hiff. set_solver.
Qed.

Lemma entity_of_column_perm col col' e :
  col' ≡ₚ col → entity_of_column col e ↔ entity_of_column col' e.
Proof.
  intros Hperm. unfold entity_of_column.
  split; intros (value & p & Hv & H); exists value, p; split; try done.
  - by rewrite Hperm.
  - by rewrite <- Hperm.
Qed.

End entities_facts.

(** C10.  For every table, [extract_entities] returns a list without
    duplicates, sorted in lexicographic order, whose members are exactly
    the non-empty trimmed sides of the pairs of the column; so no member
    is empty and each is its own trimmed form.  The list, and with it
    the map the deduplication computes from it, is the same for every
    order of the rows. *)
Theorem extract_entities_sorted_set :
  ∀ (df : DataFrame) (column : pystr),
    let entities := Processor.extract_entities df column in
    NoDup entities ∧
    StronglySorted PyStr.le entities ∧
    (∀ e, e ∈ entities → e ≠ [] ∧ PyStr.strip e = e) ∧
    (∀ e, e ∈ entities ↔
          e ≠ [] ∧ ∃ col, columns df !! column = Some col ∧
                          entity_of_column col e) ∧
    (∀ df' col col',
       columns df !! column = Some col →
       columns df' !! column = Some col' →
       col' ≡ₚ col →
       Processor.extract_entities df' column = entities ∧
       ∀ ratio model,
         Processor.find_similar_entities ratio model
           (Processor.extract_entities df' column)
         = Processor.find_similar_entities ratio model entities).
Proof.
  intros df column entities. subst entities.
  split; [apply extract_entities_NoDup|].
  split; [apply extract_entities_sorted|].
  split; [|split; [apply elem_of_extract_entities|]].
  - intros e [Hne (col & _ & He)]%elem_of_extract_entities.
    split; [done|]. by eapply entity_of_column_trimmed.
  - intros df' col col' Hc Hc' Hperm.
    assert (Heq : Processor.extract_entities df' column
                  = Processor.extract_entities df column).
    { apply (extract_entities_ext df df' column col col' Hc Hc').
      intros e. by apply entity_of_column_perm. }
    split; [done|]. intros ratio model. by rewrite Heq.
Qed.

Lemma extract_entities_sorted_set_witness :
  Processor.extract_entities
    (mkDataFrame 2 {[ answer_column :=
                        [Some (py "(B, A)"); Some (py "(C , B)")] ]})
    answer_column
  = Processor.extract_entities
      (mkDataFrame 2 {[ answer_column :=
                          [Some (py "(C , B)"); Some (py "(B, A)")] ]})
      answer_column.
Proof.
  apply (proj2 (proj2 (proj2 (proj2
           (extract_entities_sorted_set
              (mkDataFrame 2 {[ answer_column :=
                                  [Some (py "(C , B)"); Some (py "(B, A)")] ]})
              answer_column))))
           (mkDataFrame 2 {[ answer_column :=
                               [Some (py "(B, A)"); Some (py "(C , B)")] ]})
           [Some (py "(C , B)"); Some (py "(B, A)")]
           [Some (py "(B, A)"); Some (py "(C , B)")]).
  - done.
  - done.
  - apply perm_swap.
Defined.

(* ===================================================================== *)
(** ** Deduplication: proofs *)
(* ===================================================================== *)

Section dict_facts.

Lemma get_elem_of k v d : PyDict.get k d = Some v → (k, v) ∈ d.
Proof.
  induction d as [|[k' v'] d IH]; simpl; [done|].
  destruct (decide (k' = k)) as [->|_].
  - intros [= ->]. by left.
  - intros H. right. by apply IH.
Qed.

Lemma set_elem_of k v d kv : kv ∈ PyDict.set k v d → kv = (k, v) ∨ kv ∈ d.
Proof.
  induction d as [|[k' v'] d IH]; simpl.
  - intros ?%list_elem_of_singleton. by left.
  - destruct (decide (k' = k)) as [->|_].
    + intros [->|?]%elem_of_cons; [by left|]. right. by right.
    + intros [->|?]%elem_of_cons; [right; by left|].
      destruct (IH ltac:(done)); [by left|]. right. by right.
Qed.

Lemma get_set_eq k v d : PyDict.get k (PyDict.set k v d) = Some v.
Proof.
  induction d as [|[k' v'] d IH]; simpl.
  - by rewrite decide_True.
  - destruct (decide (k' = k)) as [->|Hne]; simpl.
    + by rewrite decide_True.
    + by rewrite decide_False.
Qed.

Lemma get_set_is_Some k v k' d :
  is_Some (PyDict.get k' d) → is_Some (PyDict.get k' (PyDict.set k v d)).
Proof.
  destruct (decide (k = k')) as [->|Hne]; [by rewrite get_set_eq|].
  induction d as [|[k1 v1] d IH]; simpl; [by intros [? ?]|].
  destruct (decide (k1 = k')) as [->|Hne1].
  - intros _. rewrite decide_False by done. simpl. by rewrite decide_True.
  - intros H. destruct (decide (k1 = k)) as [->|Hne2]; simpl.
    + rewrite decide_False by done. done.
    + rewrite decide_False by done. by apply IH.
Qed.

Lemma foldl_preserves {A B} (Q : A → Prop) (R : B → Prop)
    (f : A → B → A) l a :
  Q a → Forall R l → (∀ a b, Q a → R b → Q (f a b)) → Q (foldl f a l).
Proof.
  intros Ha Hl Hf. revert a Ha.
  induction Hl as [|b l Hb _ IH]; intros a Ha; simpl; [done|].
  apply IH. by apply Hf.
Qed.

Lemma foldl_reaches {A B} (Q : A → Prop) (f : A → B → A) l a x :
  x ∈ l → (∀ a, Q (f a x)) → (∀ a b, Q a → Q (f a b)) → Q (foldl f a l).
Proof.
  intros Hx Hhit Hkeep. revert a.
  induction l as [|b l IH]; intros a; [by inversion Hx|]. simpl.
  apply elem_of_cons in Hx as [<-|Hx]; [|by apply IH].
  apply (foldl_preserves Q (λ _, True)); [done| |by auto].
  by apply Forall_forall.
Qed.

End dict_facts.

Section dedup_facts.
Import Processor.

Variable ratio_exceeds_threshold : nat → nat → bool.
Variable model : option (list pystr → nat → nat → bool).

Lemma find_similar_entities_pair_loop entities :
  find_similar_entities ratio_exceeds_threshold model entities =
  pair_loop (judged_similar ratio_exceeds_threshold model entities) entities.
Proof.
  unfold find_similar_entities, judged_similar.
  destruct entities as [|e entities]; [done|]. by destruct model.
Qed.

(** An invariant of the pair loop holds of its result. *)
Lemma pair_loop_inv (Q : PyDict.t → Prop) judged entities :
  Q PyDict.empty →
  (∀ d i j, Q d → i < j → j < length entities → judged i j = true →
            Q (keep_shorter (entities !!! i) (entities !!! j) d)) →
  Q (pair_loop judged entities).
Proof.
  intros H0 Hstep. unfold pair_loop.
  apply (foldl_preserves Q (λ i, i < length entities)); [done| |].
  - apply Forall_seq. lia.
  - intros d i Hd Hi.
    apply (foldl_preserves Q (λ j, i < j ∧ j < length entities)); [done| |].
    + apply Forall_seq. lia.
    + intros d' j Hd' [Hij Hj]. destruct (judged i j) eqn:Hjudged; [|done].
      by apply Hstep.
Qed.

(** The loop passes through every pair [i < j] of positions. *)
Lemma pair_loop_visits (Q : PyDict.t → Prop) judged entities i j :
  i < j → j < length entities → judged i j = true →
  (∀ d, Q (keep_shorter (entities !!! i) (entities !!! j) d)) →
  (∀ d i' j', Q d → Q (keep_shorter (entities !!! i') (entities !!! j') d)) →
  Q (pair_loop judged entities).
Proof.
  intros Hij Hj Hjudged Hhit Hkeep. unfold pair_loop.
  assert (Hinner : ∀ d i', Q d →
    Q (foldl (λ d j', if judged i' j'
                      then keep_shorter (entities !!! i') (entities !!! j') d
                      else d)
             d (seq (i' + 1) (length entities - (i' + 1))))).
  { intros d i' Hd. apply (foldl_preserves Q (λ _, True)); [done| |].
    - by apply Forall_forall.
    - intros d' j' Hd' _. destruct (judged i' j'); [by apply Hkeep|done]. }
  apply (foldl_reaches Q _ _ _ i).
  - apply elem_of_seq. lia.
  - intros d. apply (foldl_reaches Q _ _ _ j).
    + apply elem_of_seq. lia.
    + intros d'. rewrite Hjudged. apply Hhit.
    + intros d' j' Hd'. destruct (judged i j'); [by apply Hkeep|done].
  - intros d i' Hd. by apply Hinner.
Qed.

(** Where an entry of the map comes from: a judged pair [i < j], with
    the longer entity as key, the later one on equal length. *)
Definition entry_origin (judged : nat → nat → bool) (entities : list pystr)
    (kv : pystr * pystr) : Prop :=
  ∃ i j, i < j ∧ j < length entities ∧ judged i j = true ∧
    ((kv = (entities !!! j, entities !!! i) ∧
      length (entities !!! i) ≤ length (entities !!! j)) ∨
     (kv = (entities !!! i, entities !!! j) ∧
      length (entities !!! j) < length (entities !!! i))).

Lemma pair_loop_origin judged entities :
  Forall (entry_origin judged entities) (pair_loop judged entities).
Proof.
  apply pair_loop_inv; [constructor|].
  intros d i j Hd Hij Hj Hjudged. unfold keep_shorter.
  apply Forall_forall. intros kv Hkv. rewrite Forall_forall in Hd.
  destruct (length (entities !!! i) <=? length (entities !!! j)) eqn:Hlen;
    apply set_elem_of in Hkv as [->|Hkv]; try by apply Hd.
  - apply Nat.leb_le in Hlen. exists i, j. naive_solver.
  - apply Nat.leb_gt in Hlen. exists i, j. naive_solver.
Qed.

Lemma maps_to_origin entities k v :
  maps_to (find_similar_entities ratio_exceeds_threshold model entities) k v →
  entry_origin (judged_similar ratio_exceeds_threshold model entities)
               entities (k, v).
Proof.
  intros H%get_elem_of. rewrite find_similar_entities_pair_loop in H.
  pose proof (pair_loop_origin
                (judged_similar ratio_exceeds_threshold model entities)
                entities) as Hall.
  rewrite Forall_forall in Hall. by apply Hall.
Qed.

Lemma NoDup_lookup_total (entities : list pystr) i j :
  NoDup entities → i < length entities → j < length entities →
  entities !!! i = entities !!! j → i = j.
Proof.
  intros Hnd Hi Hj Heq.
  apply (NoDup_lookup entities i j (entities !!! i)); [done| |].
  - by apply list_lookup_lookup_total_lt.
  - rewrite Heq. by apply list_lookup_lookup_total_lt.
Qed.

Lemma canonical_not_longer entities k v :
  maps_to (find_similar_entities ratio_exceeds_threshold model entities) k v →
  length v ≤ length k.
Proof.
  intros (i & j & _ & _ & _ & [[[= -> ->] ?]|[[= -> ->] ?]])%maps_to_origin; lia.
Qed.

Lemma no_self_entry entities k v :
  NoDup entities →
  maps_to (find_similar_entities ratio_exceeds_threshold model entities) k v →
  k ≠ v.
Proof.
  intros Hnd (i & j & Hij & Hj & _ & [[[= -> ->] _]|[[= -> ->] _]])%maps_to_origin
    Heq; apply NoDup_lookup_total in Heq; try done; lia.
Qed.

Lemma tie_keeps_earlier entities i j :
  NoDup entities → i < j → j < length entities →
  judged_similar ratio_exceeds_threshold model entities i j = true →
  length (entities !!! i) = length (entities !!! j) →
  let d := find_similar_entities ratio_exceeds_threshold model entities in
  is_Some (PyDict.get (entities !!! j) d) ∧
  ¬ maps_to d (entities !!! i) (entities !!! j).
Proof.
  intros Hnd Hij Hj Hjudged Hlen d. subst d. split.
  - rewrite find_similar_entities_pair_loop.
    apply (pair_loop_visits
             (λ d, is_Some (PyDict.get (entities !!! j) d)) _ _ i j);
      try done.
    + intros d. unfold keep_shorter.
      rewrite (proj2 (Nat.leb_le _ _)) by lia. by rewrite get_set_eq.
    + intros d i' j' Hd. unfold keep_shorter.
      destruct (_ <=? _); by apply get_set_is_Some.
  - intros (i' & j' & Hij' & Hj' & _ & [[[= Ha Hb] _]|[[= Ha Hb] Hlt]])%maps_to_origin.
    + apply NoDup_lookup_total in Ha; [|done|lia..].
      apply NoDup_lookup_total in Hb; [|done|lia..]. lia.
    + apply NoDup_lookup_total in Ha; [|done|lia..].
      apply NoDup_lookup_total in Hb; [|done|lia..]. subst. lia.
Qed.

End dedup_facts.

(** C3.  In either mode every entry of the map sends its key to a
    string that is not longer.  The choice on equal length is fixed: the
    loop body makes the later entity of the pair the key and the earlier
    one its value; so when two entities of equal length at positions
    [i < j] of a duplicate-free list are judged similar, the later one
    is a key of the map and the earlier one is never sent to it. *)
Theorem canonical_shorter_earlier_on_tie :
  ∀ (ratio_exceeds_threshold : nat → nat → bool)
    (model : option (list pystr → nat → nat → bool))
    (entities : list pystr),
    let d := Processor.find_similar_entities
               ratio_exceeds_threshold model entities in
    (∀ k v, maps_to d k v → length v ≤ length k) ∧
    (∀ ei ej similar_phrases,
       length ei = length ej →
       Processor.keep_shorter ei ej similar_phrases
       = PyDict.set ej ei similar_phrases) ∧
    (∀ i j,
       NoDup entities → i < j → j < length entities →
       judged_similar ratio_exceeds_threshold model entities i j = true →
       length (entities !!! i) = length (entities !!! j) →
       is_Some (PyDict.get (entities !!! j) d) ∧
       ¬ maps_to d (entities !!! i) (entities !!! j)).
Proof.
  intros ratio model entities d. split; [|split].
  - intros k v. apply canonical_not_longer.
  - intros ei ej sp Hlen. unfold Processor.keep_shorter.
    by rewrite (proj2 (Nat.leb_le _ _)) by lia.
  - intros i j. apply tie_keeps_earlier.
Qed.

Lemma canonical_shorter_earlier_on_tie_witness :
  let d := Processor.find_similar_entities (λ _ _, true) None
             [py "ab"; py "ba"] in
  is_Some (PyDict.get (py "ba") d) ∧ ¬ maps_to d (py "ab") (py "ba").
Proof.
  apply (proj2 (proj2 (canonical_shorter_earlier_on_tie
                         (λ _ _, true) None [py "ab"; py "ba"])) 0 1).
  - apply (bool_decide_unpack _). by vm_compute.
  - lia.
  - simpl. lia.
  - by vm_compute.
  - by vm_compute.
Defined.

(** C4.  The map is not transitively closed: on the nested substrings
    ["ab"], ["abc"], ["abcd"] the string-fallback mode sends ["abcd"] to
    ["abc"] and ["abc"] to ["ab"], and does not send ["abcd"] to ["ab"],
    whatever the word-overlap threshold is. *)
Theorem substring_chain_not_closed :
  ∀ ratio_exceeds_threshold : nat → nat → bool,
    let d := Processor._find_similar_with_strings ratio_exceeds_threshold
               [py "ab"; py "abc"; py "abcd"] in
    maps_to d (py "abcd") (py "abc") ∧
    maps_to d (py "abc") (py "ab") ∧
    ¬ maps_to d (py "abcd") (py "ab").
Proof. intros ratio. by vm_compute. Qed.

(** C9, the claim as stated fails: a list that names an entity twice
    sends it to itself. *)
Lemma repeated_entity_maps_to_itself :
  maps_to (Processor.find_similar_entities (λ _ _, false) None
             [py "a"; py "a"])
          (py "a") (py "a").
Proof. by vm_compute. Qed.

(** C9 (amended).  For every duplicate-free list of entities, in either
    mode, no key of the map is sent to itself. *)
Theorem no_self_mapping :
  ∀ (ratio_exceeds_threshold : nat → nat → bool)
    (model : option (list pystr → nat → nat → bool))
    (entities : list pystr),
    NoDup entities →
    ∀ k v,
      maps_to (Processor.find_similar_entities
                 ratio_exceeds_threshold model entities) k v →
      k ≠ v.
Proof. intros ratio model entities Hnd k v. by apply no_self_entry. Qed.

Lemma no_self_mapping_witness :
  NoDup [py "ab"; py "abc"; py "abcd"] ∧
  maps_to (Processor.find_similar_entities (λ _ _, false) None
             [py "ab"; py "abc"; py "abcd"])
          (py "abc") (py "ab") ∧
  py "abc" ≠ py "ab".
Proof.
  assert (Hnd : NoDup [py "ab"; py "abc"; py "abcd"]).
  { apply (bool_decide_unpack _). by vm_compute. }
  assert (Hm : maps_to (Processor.find_similar_entities (λ _ _, false) None
                          [py "ab"; py "abc"; py "abcd"])
                       (py "abc") (py "ab")) by by vm_compute.
  split; [exact Hnd|]. split; [exact Hm|].
  exact (no_self_mapping (λ _ _, false) None _ Hnd _ _ Hm).
Defined.

(** The map computed in the pipeline, from the list [extract_entities]
    returns, never sends an entity to itself. *)
Corollary pipeline_no_self_mapping :
  ∀ (ratio_exceeds_threshold : nat → nat → bool)
    (model : option (list pystr → nat → nat → bool))
    (df : DataFrame) (column : pystr) k v,
    maps_to (Processor.find_similar_entities ratio_exceeds_threshold model
               (Processor.extract_entities df column)) k v →
    k ≠ v.
Proof.
  intros ratio model df column k v. apply no_self_entry.
  apply extract_entities_NoDup.
Qed.

(* ===================================================================== *)
(** ** Substitution: proofs *)
(* ===================================================================== *)

Section replace_facts.

Lemma replace_from_skip old new s skip :
  skip ≤ length s →
  PyStr.replace_from old new s skip = PyStr.replace_from old new (drop skip s) 0.
Proof.
  revert skip. induction s as [|c s IH]; intros skip Hk.
  - simpl in Hk. assert (skip = 0) as -> by lia. done.
  - destruct skip as [|k]; [done|]. simpl in *. apply IH. lia.
Qed.

Lemma startswith_app old s : PyStr.startswith old (old ++ s) = true.
Proof. apply startswith_prefix. by exists s. Qed.

(** An occurrence at the head is replaced, and the scan goes on behind
    it. *)
Lemma replace_hit old new s :
  old ≠ [] →
  PyStr.replace old new (old ++ s) = new ++ PyStr.replace old new s.
Proof.
  destruct old as [|c old]; [done|]. intros _. unfold PyStr.replace.
  change ((c :: old) ++ s) with (c :: (old ++ s)).
  cbn [PyStr.replace_from].
  change (c :: old ++ s) with ((c :: old) ++ s).
  rewrite startswith_app. f_equal.
  rewrite replace_from_skip by (simpl; rewrite length_app; lia).
  simpl. by rewrite Nat.sub_0_r, drop_app_length.
Qed.

(** A character at which no occurrence starts is kept. *)
Lemma replace_miss old new c s :
  old ≠ [] →
  PyStr.startswith old (c :: s) = false →
  PyStr.replace old new (c :: s) = c :: PyStr.replace old new s.
Proof.
  destruct old as [|c0 old]; [done|]. intros _ Hs. unfold PyStr.replace.
  cbn [PyStr.replace_from]. by rewrite Hs.
Qed.

Lemma replace_nil old new : old ≠ [] → PyStr.replace old new [] = [].
Proof. by destruct old. Qed.

(** A string in which [old] does not occur is unchanged. *)
Lemma replace_absent old new s :
  PyStr.contains old s = false → PyStr.replace old new s = s.
Proof.
  intros Hc. assert (Hold : old ≠ []).
  { intros ->. by destruct s. }
  induction s as [|c s IH]; [by apply replace_nil|].
  simpl in Hc. apply orb_false_iff in Hc as [Hs Hc].
  rewrite replace_miss by done. by rewrite IH.
Qed.

End replace_facts.

Section substitute_facts.
Import Processor.

Lemma insert_mapped_prefix {A} (f : A → A) (l : list A) k x :
  l !! k = Some x →
  <[k := f x]> ((f <$> take k l) ++ drop k l)
  = (f <$> take (S k) l) ++ drop (S k) l.
Proof.
  intros Hk. pose proof (lookup_lt_Some _ _ _ Hk) as Hlt.
  rewrite (take_S_r _ _ _ Hk), (drop_S _ _ _ Hk), fmap_app. simpl.
  rewrite <- app_assoc. simpl.
  assert (Hlen : length (f <$> take k l) = k).
  { rewrite length_fmap, length_take. lia. }
  rewrite insert_app_r_alt by lia.
  rewrite Hlen, Nat.sub_diag. done.
Qed.

Lemma lookup_mapped_prefix {A} (f : A → A) (l : list A) k :
  ((f <$> take k l) ++ drop k l) !! k = l !! k.
Proof.
  destruct (decide (k < length l)) as [Hlt|Hge].
  - rewrite lookup_app_r by (rewrite length_fmap, length_take; lia).
    rewrite length_fmap, length_take, lookup_drop. f_equal. lia.
  - rewrite (lookup_ge_None_2 l) by lia. apply lookup_ge_None_2.
    rewrite length_app, length_fmap, length_take, length_drop. lia.
Qed.

(** The rows rewritten so far. *)
Lemma substitute_rows similar_phrases df column col k :
  columns df !! column = Some col →
  length col = n_rows df →
  k ≤ n_rows df →
  let f := λ x : cell, Some (substitute_cell similar_phrases (str x)) in
  foldl (λ (acc : exn + DataFrame) index,
           match acc with
           | inl e => inl e
           | inr modified_df =>
               match row_item modified_df index column with
               | inl e => inl e
               | inr x =>
                   let cell_value := substitute_cell similar_phrases (str x) in
                   inr (set_at modified_df index column (Some cell_value))
               end
           end)
        (inr df) (seq 0 k)
  = inr (mkDataFrame (n_rows df)
           (<[column := (f <$> take k col) ++ drop k col]> (columns df))).
Proof.
  intros Hcol Hlen Hk f. induction k as [|k IH].
  - simpl. rewrite drop_0. destruct df as [n cols]. simpl in *.
    by rewrite insert_id.
  - rewrite seq_S, foldl_app, IH by lia. simpl.
    unfold row_item. simpl. rewrite lookup_insert_eq.
    rewrite lookup_mapped_prefix.
    destruct (col !! k) as [x|] eqn:Hx.
    + simpl. unfold set_at. simpl. f_equal. f_equal.
      rewrite alter_insert_eq. f_equal.
      exact (insert_mapped_prefix f col k x Hx).
    + apply lookup_ge_None in Hx. lia.
Qed.

Lemma substitute_result df similar_phrases column col :
  similar_phrases ≠ [] →
  columns df !! column = Some col →
  length col = n_rows df →
  substitute_similar_entities df similar_phrases column
  = inr (mkDataFrame (n_rows df)
           (<[column := (λ x : cell,
                           Some (substitute_cell similar_phrases (str x)))
                        <$> col]> (columns df))).
Proof.
  intros Hne Hcol Hlen. unfold substitute_similar_entities.
  destruct similar_phrases as [|kv rest]; [done|].
  rewrite (substitute_rows _ df column col (n_rows df)) by (done || lia).
  rewrite <- Hlen, firstn_all, drop_all. by rewrite app_nil_r.
Qed.

End substitute_facts.

(** C8.  With an empty map the table itself is returned.  Otherwise
    every cell of the column becomes the text of the input cell with the
    entries of the map applied one after the other, in the order of the
    map, each as [str.replace]: an occurrence of the duplicate at the
    head of the text is replaced by the canonical string and the scan
    goes on behind it, any other character is kept.  The replacement
    does not look at entity boundaries: with ["insulin receptor"] sent to
    ["insulin"], the entity ["insulin receptor substrate"] of a cell
    becomes ["insulin substrate"]. *)
Theorem substitute_is_literal_replacement :
  ∀ (df : DataFrame) (similar_phrases : PyDict.t) (column : pystr),
    (similar_phrases = [] →
     Processor.substitute_similar_entities df similar_phrases column = inr df) ∧
    (∀ col,
       similar_phrases ≠ [] →
       columns df !! column = Some col →
       length col = n_rows df →
       Processor.substitute_similar_entities df similar_phrases column
       = inr (mkDataFrame (n_rows df)
                (<[column := (λ x : cell,
                     Some (Processor.substitute_cell similar_phrases (str x)))
                   <$> col]> (columns df)))) ∧
    (∀ value, Processor.substitute_cell [] value = value) ∧
    (∀ similar original rest value,
       Processor.substitute_cell ((similar, original) :: rest) value
       = Processor.substitute_cell rest
           (PyStr.replace similar original value)) ∧
    (∀ old new s,
       old ≠ [] →
       PyStr.replace old new (old ++ s) = new ++ PyStr.replace old new s) ∧
    (∀ old new c s,
       old ≠ [] → PyStr.startswith old (c :: s) = false →
       PyStr.replace old new (c :: s) = c :: PyStr.replace old new s) ∧
    (∀ old new, old ≠ [] → PyStr.replace old new [] = []) ∧
    Processor.substitute_cell [(py "insulin receptor", py "insulin")]
      (py "(insulin receptor substrate, glucose uptake)")
    = py "(insulin substrate, glucose uptake)".
Proof.
  intros df sp column. repeat split.
  - by intros ->.
  - intros col. apply substitute_result.
  - apply replace_hit.
  - apply replace_miss.
  - apply replace_nil.
Qed.

Lemma substitute_is_literal_replacement_witness :
  Processor.substitute_similar_entities
    (mkDataFrame 2 {[ answer_column :=
                        [Some (py "(abcd, abc)"); None] ]})
    [(py "abc", py "ab"); (py "abcd", py "abc")]
    answer_column
  = inr (mkDataFrame 2 {[ answer_column :=
                            [Some (py "(abd, ab)"); Some (py "nan")] ]}).
Proof.
  rewrite (proj1 (proj2 (substitute_is_literal_replacement
                     (mkDataFrame 2 {[ answer_column :=
                                         [Some (py "(abcd, abc)"); None] ]})
                     [(py "abc", py "ab"); (py "abcd", py "abc")]
                     answer_column))
             [Some (py "(abcd, abc)"); None]);
    [|done|by vm_compute|done].
  by vm_compute.
Defined.

(* ===================================================================== *)
(** ** Graph construction: proofs *)
(* ===================================================================== *)

Section graph_build_facts.
Import Visualizer.

Lemma existsb_contains exclude s :
  existsb (λ exc, PyStr.contains exc s) exclude = true ↔
  ∃ exc, exc ∈ exclude ∧ is_substring exc s.
Proof.
  rewrite existsb_exists. split; intros (exc & Hin & Hc); exists exc.
  - split; [by apply list_elem_of_In|by apply contains_substring].
  - split; [by apply list_elem_of_In|by apply contains_substring].
Qed.

(** The test of the loop fails exactly on the rejected triples. *)
Lemma accepted_false exclude a b :
  accepted exclude a b = false ↔ rejected exclude a b.
Proof.
  unfold accepted, rejected.
  rewrite !andb_false_iff, !negb_false_iff, !bool_decide_eq_true.
  rewrite !existsb_contains. naive_solver.
Qed.

Lemma accepted_true exclude a b :
  accepted exclude a b = true ↔ ¬ rejected exclude a b.
Proof.
  rewrite <- accepted_false. by destruct (accepted exclude a b).
Qed.

Lemma touch_node_nodes n G m :
  nodes (touch_node n G) !! m =
  if decide (n = m) then Some (default None (nodes G !! n)) else nodes G !! m.
Proof.
  unfold touch_node. destruct (nodes G !! n) as [a|] eqn:Hn.
  - destruct (decide (n = m)) as [<-|]; [by rewrite Hn|done].
  - simpl. destruct (decide (n = m)) as [<-|].
    + by rewrite lookup_insert_eq.
    + by rewrite lookup_insert_ne.
Qed.

Lemma add_edge_title u v t G :
  edge_title (add_edge u v t G) u v = Some t ∧
  edge_title (add_edge u v t G) v u = Some t.
Proof.
  unfold edge_title, add_edge. simpl.
  set (G' := touch_node v (touch_node u G)).
  destruct (decide (u = v)) as [->|Hne].
  - rewrite lookup_insert_eq. simpl. by rewrite lookup_insert_eq.
  - rewrite lookup_insert_eq. simpl. rewrite lookup_insert_eq.
    rewrite lookup_insert_ne by done. rewrite lookup_insert_eq. simpl.
    by rewrite lookup_insert_eq.
Qed.

Lemma add_edge_nodes u v t G m :
  is_Some (nodes G !! u) → is_Some (nodes G !! v) →
  nodes (add_edge u v t G) !! m = nodes G !! m.
Proof.
  intros [a Ha] [b Hb]. unfold add_edge. simpl.
  rewrite !touch_node_nodes.
  destruct (decide (v = m)) as [<-|].
  - destruct (decide (u = v)) as [<-|]; by rewrite ?Ha, ?Hb.
  - destruct (decide (u = m)) as [<-|]; by rewrite ?Ha.
Qed.

Lemma add_node_nodes n l G m :
  nodes (add_node n l G) !! m =
  if decide (n = m) then Some (Some l) else nodes G !! m.
Proof.
  unfold add_node. simpl. destruct (decide (n = m)) as [<-|].
  - by rewrite lookup_insert_eq.
  - by rewrite lookup_insert_ne.
Qed.

(** What an accepted triple leaves in the graph. *)
Lemma add_match_accepted exclude source G mt :
  let a := PyStr.strip mt.1 in
  let b := PyStr.strip mt.2 in
  accepted exclude a b = true →
  let G' := add_match exclude source G mt in
  nodes G' !! a = Some (Some a) ∧ nodes G' !! b = Some (Some b) ∧
  edge_title G' a b = Some source ∧ edge_title G' b a = Some source.
Proof.
  intros a b Hacc G'. subst G'. unfold add_match. fold a b. rewrite Hacc.
  set (G1 := add_node b b (add_node a a G)).
  assert (Ha : nodes G1 !! a = Some (Some a)).
  { unfold G1. rewrite !add_node_nodes.
    destruct (decide (b = a)) as [->|]; [done|]. by rewrite decide_True. }
  assert (Hb : nodes G1 !! b = Some (Some b)).
  { unfold G1. rewrite add_node_nodes. by rewrite decide_True. }
  rewrite !add_edge_nodes by (by rewrite ?Ha, ?Hb).
  split; [done|]. split; [done|]. apply add_edge_title.
Qed.

Lemma add_match_rejected exclude source G mt :
  accepted exclude (PyStr.strip mt.1) (PyStr.strip mt.2) = false →
  add_match exclude source G mt = G.
Proof. intros H. unfold add_match. by rewrite H. Qed.

(** Only the two sides of an accepted triple become nodes. *)
Lemma add_match_new_node exclude source G mt n :
  is_Some (nodes (add_match exclude source G mt) !! n) →
  is_Some (nodes G !! n) ∨
  (accepted exclude (PyStr.strip mt.1) (PyStr.strip mt.2) = true ∧
   (n = PyStr.strip mt.1 ∨ n = PyStr.strip mt.2)).
Proof.
  unfold add_match.
  destruct (accepted _ _ _) eqn:Hacc; [|by left].
  set (a := PyStr.strip mt.1). set (b := PyStr.strip mt.2).
  set (G1 := add_node b b (add_node a a G)).
  assert (Ha : is_Some (nodes G1 !! a)).
  { unfold G1. rewrite !add_node_nodes.
    destruct (decide (b = a)); [done|]. by rewrite decide_True. }
  assert (Hb : is_Some (nodes G1 !! b)).
  { unfold G1. rewrite add_node_nodes. by rewrite decide_True. }
  rewrite add_edge_nodes by done. unfold G1. rewrite !add_node_nodes.
  destruct (decide (b = n)) as [<-|]; [right; auto|].
  destruct (decide (a = n)) as [<-|]; [right; auto|]. by left.
Qed.

(** No node of the graph that the loop builds is empty or contains an
    excluded string. *)
Lemma build_graph_nodes_clean df exclude n :
  is_Some (nodes (build_graph df exclude) !! n) →
  n ≠ [] ∧ ∀ exc, exc ∈ exclude → ¬ is_substring exc n.
Proof.
  unfold build_graph.
  set (Q := λ G : Graph, ∀ n, is_Some (nodes G !! n) →
              n ≠ [] ∧ ∀ exc, exc ∈ exclude → ¬ is_substring exc n).
  enough (HQ : Q (foldl (λ G i,
                  let value := str (row_get df i answer_column (Some [])) in
                  let source :=
                    str (row_get df i title_column (Some (py "Unknown"))) in
                  foldl (add_match exclude source) G
                        (Regex.findall Regex.pattern value))
                empty_graph (seq 0 (n_rows df)))) by apply HQ.
  apply (foldl_preserves Q (λ _, True)).
  - intros m [? Hm]. simpl in Hm. by rewrite lookup_empty in Hm.
  - by apply Forall_forall.
  - intros G i HG _. simpl.
    apply (foldl_preserves Q (λ _, True)); [done|by apply Forall_forall|].
    intros G' mt HG' _ m Hm.
    apply add_match_new_node in Hm as [Hm|[Hacc Hm]]; [by apply HG'|].
    apply accepted_true in Hacc. unfold rejected in Hacc.
    split.
    + intros ->. destruct Hm as [Hm|Hm]; rewrite <- Hm in Hacc; tauto.
    + intros exc Hexc Hsub. apply Hacc. right. right. exists exc.
      split; [done|]. destruct Hm as [->| ->]; tauto.
Qed.

End graph_build_facts.

(** C5.  In the graph-building loop of [create_filtered_network] the
    test fails for a triple if and only if one of its entities is empty
    after trimming or contains a string of the exclusion list (a
    case-sensitive substring test).  A rejected triple leaves the graph
    as it was; an accepted one leaves both entities as nodes and the
    edge between them, titled with the source.  So no node of the
    graph built from a table is empty or contains an excluded string;
    with the list [["Pathway"]] the pair [(Protein2, Pathway3)] is
    dropped and [(Protein2, pathway3)] is kept. *)
Theorem exclusion_filter_rejects :
  ∀ (exclude_entities : list pystr) (source : pystr)
    (G : Visualizer.Graph) (mt : pystr * pystr),
    let entity_a := PyStr.strip mt.1 in
    let entity_b := PyStr.strip mt.2 in
    let G' := Visualizer.add_match exclude_entities source G mt in
    (Visualizer.accepted exclude_entities entity_a entity_b = false ↔
     rejected exclude_entities entity_a entity_b) ∧
    (rejected exclude_entities entity_a entity_b → G' = G) ∧
    (¬ rejected exclude_entities entity_a entity_b →
     Visualizer.nodes G' !! entity_a = Some (Some entity_a) ∧
     Visualizer.nodes G' !! entity_b = Some (Some entity_b) ∧
     edge_title G' entity_a entity_b = Some source ∧
     edge_title G' entity_b entity_a = Some source) ∧
    (∀ df n,
       is_Some (Visualizer.nodes
                  (Visualizer.build_graph df exclude_entities) !! n) →
       n ≠ [] ∧ ∀ exc, exc ∈ exclude_entities → ¬ is_substring exc n) ∧
    Visualizer.add_match [py "Pathway"] source G (py "Protein2", py "Pathway3")
      = G ∧
    Visualizer.accepted [py "Pathway"] (py "Protein2") (py "pathway3") = true.
Proof.
  intros exclude source G mt a b G'.
  split; [apply accepted_false|].
  split; [|split; [|split; [|split]]].
  - intros H%accepted_false. by apply add_match_rejected.
  - intros H%accepted_true. by apply add_match_accepted.
  - intros df n. apply build_graph_nodes_clean.
  - apply add_match_rejected. by vm_compute.
  - by vm_compute.
Qed.

Lemma exclusion_filter_rejects_witness :
  Visualizer.add_match [py "Pathway"] (py "t") Visualizer.empty_graph
    (py " Gene1", py "NF-kB Pathway ")
  = Visualizer.empty_graph.
Proof.
  apply (proj1 (proj2 (exclusion_filter_rejects
                         [py "Pathway"] (py "t") Visualizer.empty_graph
                         (py " Gene1", py "NF-kB Pathway ")))).
  right. right. exists (py "Pathway"). split; [by left|].
  right. by exists (py "NF-kB "), [].
Defined.

(* ===================================================================== *)
(** ** Keyword-centred subgraph search: proofs *)
(* ===================================================================== *)

Section search_facts.
Import Visualizer.

Lemma elem_of_keyword_nodes (G : Graph) keyword n :
  n ∈ keyword_nodes G keyword ↔ label_matches G keyword n.
Proof.
  unfold keyword_nodes, label_matches. rewrite elem_of_dom. split.
  - intros [attr [Hn Hc]%map_lookup_filter_Some]. simpl in Hc.
    exists attr. split; [done|]. by apply contains_substring.
  - intros (attr & Hn & Hc). exists attr.
    apply map_lookup_filter_Some. split; [done|]. simpl.
    by apply contains_substring.
Qed.

Lemma elem_of_expand (G : Graph) (X : gset pystr) n :
  n ∈ expand G X ↔
  n ∈ X ∨ ∃ u, u ∈ X ∧ u ∈ dom (nodes G) ∧ n ∈ neighbors G u.
Proof.
  unfold expand. rewrite elem_of_union, elem_of_set_bind. split.
  - intros [?|(u & Hu & Hn)]; [by left|]. right. exists u.
    destruct (decide (u ∈ dom (nodes G))); [done|]. by set_solver.
  - intros [?|(u & Hu & Hd & Hn)]; [by left|]. right. exists u.
    split; [done|]. by rewrite decide_True.
Qed.

Lemma within_S (G : Graph) seeds k n : within G seeds k n → within G seeds (S k) n.
Proof.
  induction 1 as [k n Hn|k u n _ IH Hu Hn].
  - by apply within_seed.
  - by apply (within_hop _ _ _ u).
Qed.

(** After [k] rounds the set holds the nodes within [k] hops. *)
Lemma elem_of_rounds (G : Graph) seeds k n :
  n ∈ Nat.iter k (expand G) seeds ↔ within G seeds k n.
Proof.
  revert n. induction k as [|k IH]; intros n; simpl.
  - split; [by apply within_seed|]. by inversion 1.
  - rewrite elem_of_expand. split.
    + intros [Hn|(u & Hu & Hd & Hn)].
      * apply within_S. by apply IH.
      * apply (within_hop _ _ _ u); [by apply IH|done..].
    + inversion 1 as [? ? Hn|? u ? Hu Hd Hn]; subst.
      * left. apply IH. by apply within_seed.
      * right. exists u. split; [by apply IH|done].
Qed.

Lemma subgraph_nodes (G : Graph) keep n attr :
  nodes (subgraph G keep) !! n = Some attr ↔
  nodes G !! n = Some attr ∧ n ∈ keep.
Proof. unfold subgraph. simpl. by rewrite map_lookup_filter_Some. Qed.

Lemma subgraph_edge (G : Graph) keep u v t :
  edge_title (subgraph G keep) u v = Some t ↔
  edge_title G u v = Some t ∧
  (u ∈ keep ∧ u ∈ dom (nodes G)) ∧ (v ∈ keep ∧ v ∈ dom (nodes G)).
Proof.
  unfold edge_title, subgraph. simpl. rewrite lookup_fmap.
  rewrite !bind_Some. split.
  - intros (nbrs' & Hu & Hv).
    apply fmap_Some in Hu as (nbrs & Hu & ->).
    apply map_lookup_filter_Some in Hu as [Hu Hku].
    apply map_lookup_filter_Some in Hv as [Hv Hkv]. simpl in *.
    split; [by exists nbrs|done].
  - intros [(nbrs & Hu & Hv) [Hku Hkv]].
    exists (filter (λ vt, vt.1 ∈ keep ∧ vt.1 ∈ dom (nodes G)) nbrs). split.
    + apply fmap_Some. exists nbrs. split; [|done].
      by apply map_lookup_filter_Some.
    + by apply map_lookup_filter_Some.
Qed.

Lemma within_no_seed (G : Graph) k n : ¬ within G ∅ k n.
Proof. induction 1 as [k n Hn|]; [set_solver|done]. Qed.

Lemma search_nodes (G : Graph) keyword depth n attr :
  nodes (_search_network G keyword depth) !! n = Some attr ↔
  nodes G !! n = Some attr ∧ within G (keyword_nodes G keyword) depth n.
Proof.
  unfold _search_network.
  destruct (decide (keyword_nodes G keyword = ∅)) as [He|Hne].
  - rewrite He. simpl. rewrite lookup_empty. split; [done|].
    intros [_ H]. by apply within_no_seed in H.
  - by rewrite subgraph_nodes, elem_of_rounds.
Qed.

Lemma search_edge (G : Graph) keyword depth u v t :
  edge_title (_search_network G keyword depth) u v = Some t ↔
  edge_title G u v = Some t ∧
  (within G (keyword_nodes G keyword) depth u ∧ u ∈ dom (nodes G)) ∧
  (within G (keyword_nodes G keyword) depth v ∧ v ∈ dom (nodes G)).
Proof.
  unfold _search_network.
  destruct (decide (keyword_nodes G keyword = ∅)) as [He|Hne].
  - rewrite He. unfold edge_title at 1. simpl. rewrite lookup_empty. simpl.
    split; [done|]. intros (_ & [H _] & _). by apply within_no_seed in H.
  - by rewrite subgraph_edge, !elem_of_rounds.
Qed.

Lemma search_depth_0 (G : Graph) keyword :
  dom (nodes (_search_network G keyword 0)) = keyword_nodes G keyword.
Proof.
  apply set_eq. intros n. rewrite elem_of_dom. split.
  - intros [attr [_ H]%search_nodes]. by inversion H.
  - intros Hn. pose proof Hn as (attr & Hattr & _)%elem_of_keyword_nodes.
    exists attr. apply search_nodes. split; [done|]. by apply within_seed.
Qed.

Lemma search_no_seed (G : Graph) keyword depth :
  keyword_nodes G keyword = ∅ →
  _search_network G keyword depth = empty_graph.
Proof. intros He. unfold _search_network. by rewrite decide_True. Qed.

End search_facts.

(** C2.  For every graph, keyword and depth, the seeds of the search
    are the nodes whose label contains the keyword, case ignored; the
    result has exactly the nodes of the graph within [depth] hops of a
    seed, each with its label, and exactly the edges of the graph
    between two such nodes.  With depth 0 the nodes are the seeds; with
    no seed the result is the empty graph; on the path A - B - C the
    keyword ["A"] and depth 1 give the nodes A and B and the edge
    between them, and not C. *)
Theorem search_network_induced :
  ∀ (graph : Visualizer.Graph) (keyword : pystr) (depth : nat),
    let seeds := Visualizer.keyword_nodes graph keyword in
    let result := Visualizer._search_network graph keyword depth in
    let included n :=
      within graph seeds depth n ∧ n ∈ dom (Visualizer.nodes graph) in
    (∀ n, n ∈ seeds ↔ label_matches graph keyword n) ∧
    (∀ n attr,
       Visualizer.nodes result !! n = Some attr ↔
       Visualizer.nodes graph !! n = Some attr ∧ within graph seeds depth n) ∧
    (∀ u v t,
       edge_title result u v = Some t ↔
       edge_title graph u v = Some t ∧ included u ∧ included v) ∧
    dom (Visualizer.nodes (Visualizer._search_network graph keyword 0))
      = seeds ∧
    (seeds = ∅ → result = Visualizer.empty_graph) ∧
    dom (Visualizer.nodes (Visualizer._search_network path_ABC (py "A") 1))
      = {[ py "A"; py "B" ]} ∧
    edge_title (Visualizer._search_network path_ABC (py "A") 1)
      (py "A") (py "B") = Some (py "t1") ∧
    Visualizer.nodes (Visualizer._search_network path_ABC (py "A") 1)
      !! py "C" = None.
Proof.
  intros graph keyword depth seeds result included.
  split; [apply elem_of_keyword_nodes|].
  split; [apply search_nodes|].
  split; [apply search_edge|].
  split; [apply search_depth_0|].
  split; [apply search_no_seed|].
  split; [|split]; by vm_compute.
Qed.

Lemma search_network_induced_witness :
  Visualizer._search_network path_ABC (py "kinase") 2
  = Visualizer.empty_graph.
Proof.
  apply (proj1 (proj2 (proj2 (proj2 (proj2
           (search_network_induced path_ABC (py "kinase") 2)))))).
  by vm_compute.
Defined.

(* ===================================================================== *)
(** ** Batch analysis: proofs *)
(* ===================================================================== *)

Section table_facts.

Lemma foldl_ext_eq {A B} (f g : A → B → A) a l :
  (∀ a b, f a b = g a b) → foldl f a l = foldl g a l.
Proof.
  intros H. revert a. induction l as [|b l IH]; intros a; simpl; [done|].
  by rewrite H, IH.
Qed.

Lemma alter_lookup_insert {A} (f : A → A) (m : gmap pystr A) i x :
  m !! i = Some x → alter f i m = <[i := f x]> m.
Proof.
  intros Hi. apply map_eq. intros j. rewrite lookup_alter, lookup_insert.
  case_decide; [subst; by rewrite Hi|done].
Qed.

(** Assignments [df.at[i, column] = r i] for the rows of [l]. *)
Lemma set_at_fold (r : nat → cell) column l df col :
  columns df !! column = Some col →
  foldl (λ df i, set_at df i column (r i)) df l
  = mkDataFrame (n_rows df)
      (<[column := foldl (λ col i, <[i := r i]> col) col l]> (columns df)).
Proof.
  revert df col. induction l as [|i l IH]; intros df col Hcol; simpl.
  - destruct df as [n cols]. simpl in *. by rewrite insert_id.
  - rewrite (IH _ (<[i := r i]> col)).
    + simpl. f_equal. rewrite (alter_lookup_insert _ _ _ col) by done.
      by rewrite insert_insert_eq.
    + simpl. rewrite (alter_lookup_insert _ _ _ col) by done.
      by rewrite lookup_insert_eq.
Qed.

Lemma insert_fold_length (r : nat → cell) l (col : list cell) :
  length (foldl (λ col i, <[i := r i]> col) col l) = length col.
Proof.
  revert col. induction l as [|i l IH]; intros col; simpl; [done|].
  by rewrite IH, length_insert.
Qed.

Lemma insert_fold_lookup (r : nat → cell) l (col : list cell) j :
  j < length col →
  foldl (λ col i, <[i := r i]> col) col l !! j
  = if decide (j ∈ l) then Some (r j) else col !! j.
Proof.
  revert col. induction l as [|i l IH]; intros col Hj; cbn [foldl].
  - by rewrite decide_False by (by inversion 1).
  - rewrite IH by (by rewrite length_insert).
    destruct (decide (j ∈ l)) as [Hin|Hnin].
    + by rewrite decide_True by (by right).
    + destruct (decide (i = j)) as [->|Hne].
      * rewrite decide_True by (by left).
        by rewrite list_lookup_insert_eq.
      * rewrite decide_False by (by intros [?|?]%elem_of_cons).
        by rewrite list_lookup_insert_ne.
Qed.

End table_facts.

Section analyzer_facts.
Import Analyzer.

Variable chat : nat → pystr → exn + pystr.

(** When the result of a row is the empty string. *)
Lemma analyze_abstract_empty i abstract :
  analyze_abstract chat i abstract = [] ↔
  abstract = None ∨ abstract = Some [] ∨
  (∃ e, chat i (str abstract) = inl e) ∨
  (∃ content, chat i (str abstract) = inr content ∧ PyStr.strip content = []).
Proof.
  unfold analyze_abstract. destruct abstract as [[|c s]|]; simpl.
  - naive_solver.
  - destruct (chat i (c :: s)) as [e|content]; naive_solver.
  - naive_solver.
Qed.

Lemma analyze_single_row_ok rows i abs_col :
  columns rows !! abstract_column = Some abs_col →
  analyze_single_row chat rows i
  = inr (i, analyze_abstract chat i (default None (abs_col !! i))).
Proof.
  intros Habs. unfold analyze_single_row, row_item. rewrite Habs.
  unfold analyze_abstract. by destruct (is_blank _).
Qed.

Lemma parallel_as_fold df rows completed abs_col :
  columns rows !! abstract_column = Some abs_col →
  _batch_analyze_parallel chat df rows completed
  = foldl (λ df i, set_at df i answer_column
                     (Some (analyze_abstract chat i (default None (abs_col !! i)))))
          df completed.
Proof.
  intros Habs. unfold _batch_analyze_parallel. apply foldl_ext_eq.
  intros d i. by rewrite (analyze_single_row_ok _ _ abs_col).
Qed.

Lemma sequential_as_fold df rows rows_to_process abs_col :
  columns rows !! abstract_column = Some abs_col →
  _batch_analyze_sequential chat df rows rows_to_process
  = inr (foldl (λ df i, set_at df i answer_column
                     (Some (analyze_abstract chat i (default None (abs_col !! i)))))
               df rows_to_process).
Proof.
  intros Habs. unfold _batch_analyze_sequential.
  revert df. induction rows_to_process as [|i l IH]; intros df; simpl; [done|].
  unfold row_item at 2. rewrite Habs. apply IH.
Qed.

(** Both modes leave the same table. *)
Lemma batch_analyze_result use_parallel as_completed df start_row abs_col :
  (∀ l, as_completed l ≡ₚ l) →
  columns df !! abstract_column = Some abs_col →
  (∀ c col, columns df !! c = Some col → length col = n_rows df) →
  ∃ df' ans',
    batch_analyze chat use_parallel as_completed df start_row = inr df' ∧
    n_rows df' = n_rows df ∧
    columns df' !! answer_column = Some ans' ∧
    length ans' = n_rows df ∧
    (∀ c, c ≠ answer_column → columns df' !! c = columns df !! c) ∧
    (∀ i, i < n_rows df → (start_row ≤ Z.of_nat i)%Z →
          ans' !! i = Some (Some (analyze_abstract chat i
                                    (default None (abs_col !! i))))) ∧
    (∀ i, i < n_rows df → (Z.of_nat i < start_row)%Z →
          ans' !! i = match columns df !! answer_column with
                      | Some ans => ans !! i
                      | None => Some (Some [])
                      end).
Proof.
  intros Hperm Habs Hwf. unfold batch_analyze.
  set (df1 := match columns df !! answer_column with
              | Some _ => df
              | None => set_column df answer_column (Some [])
              end).
  set (ans := default (replicate (n_rows df) (Some []))
                      (columns df !! answer_column)).
  assert (Hn1 : n_rows df1 = n_rows df).
  { unfold df1. by destruct (columns df !! answer_column). }
  assert (Hans : columns df1 !! answer_column = Some ans).
  { unfold df1, ans. destruct (columns df !! answer_column) eqn:Ha; [done|].
    simpl. by rewrite lookup_insert_eq. }
  assert (Hlen : length ans = n_rows df).
  { unfold ans. destruct (columns df !! answer_column) eqn:Ha; simpl.
    - by apply (Hwf answer_column).
    - by rewrite length_replicate. }
  assert (Hother : ∀ c, c ≠ answer_column → columns df1 !! c = columns df !! c).
  { intros c Hc. unfold df1. destruct (columns df !! answer_column); [done|].
    simpl. by rewrite lookup_insert_ne. }
  assert (Habs1 : columns df1 !! abstract_column = Some abs_col).
  { rewrite Hother; [done|]. by vm_compute. }
  assert (Hold : ∀ i, i < n_rows df →
            ans !! i = match columns df !! answer_column with
                       | Some a => a !! i
                       | None => Some (Some [])
                       end).
  { intros i Hi. unfold ans. destruct (columns df !! answer_column); [done|].
    simpl. by apply lookup_replicate_2. }
  rewrite Hn1.
  set (rows := filter (λ i, (start_row ≤ Z.of_nat i)%Z) (seq 0 (n_rows df))).
  set (r := λ i, Some (analyze_abstract chat i (default None (abs_col !! i)))).
  assert (Hrows : ∀ i, i ∈ rows ↔ i < n_rows df ∧ (start_row ≤ Z.of_nat i)%Z).
  { intros i. unfold rows. rewrite list_elem_of_filter, elem_of_seq. lia. }
  assert (Hfold : ∀ l, (∀ i, i ∈ l ↔ i ∈ rows) →
    let df' := foldl (λ df i, set_at df i answer_column (r i)) df1 l in
    ∃ ans', n_rows df' = n_rows df ∧
      columns df' !! answer_column = Some ans' ∧ length ans' = n_rows df ∧
      (∀ c, c ≠ answer_column → columns df' !! c = columns df !! c) ∧
      (∀ i, i < n_rows df → (start_row ≤ Z.of_nat i)%Z → ans' !! i = Some (r i)) ∧
      (∀ i, i < n_rows df → (Z.of_nat i < start_row)%Z →
            ans' !! i = match columns df !! answer_column with
                        | Some a => a !! i
                        | None => Some (Some [])
                        end)).
  { intros l Hl df'. subst df'. rewrite (set_at_fold r _ _ _ ans Hans).
    simpl. exists (foldl (λ col i, <[i := r i]> col) ans l).
    split; [done|]. split; [by rewrite lookup_insert_eq|].
    split; [by rewrite insert_fold_length|].
    split; [intros c Hc; rewrite lookup_insert_ne by done; by apply Hother|].
    split.
    - intros i Hi Hs. rewrite insert_fold_lookup by lia.
      rewrite decide_True; [done|]. apply Hl, Hrows. done.
    - intros i Hi Hs. rewrite insert_fold_lookup by lia.
      rewrite decide_False; [by apply Hold|].
      intros Hin%Hl%Hrows. lia. }
  destruct rows as [|i0 rows'] eqn:Hrows_eq.
  - exists df1, ans. split; [done|]. split; [done|]. split; [done|].
    split; [done|]. split; [done|]. split.
    + intros i Hi Hs. assert (i ∈ @nil nat) as Hin by (apply Hrows; done).
      by inversion Hin.
    + intros i Hi _. by apply Hold.
  - destruct use_parallel.
    + rewrite (parallel_as_fold _ _ _ abs_col Habs1).
      destruct (Hfold (as_completed (i0 :: rows'))) as (ans' & H).
      { intros i. by rewrite Hperm. }
      eexists _, ans'. split; [done|]. exact H.
    + rewrite (sequential_as_fold _ _ _ abs_col Habs1).
      destruct (Hfold (i0 :: rows')) as (ans' & H); [done|].
      eexists _, ans'. split; [done|]. exact H.
Qed.

End analyzer_facts.

(** C6, the claim as stated fails: a row whose request succeeded with a
    reply of blanks, on a non-empty abstract, holds the empty string. *)
Lemma blank_reply_gives_empty_result :
  let chat : nat → pystr → exn + pystr := λ _ _, inr (py "  ") in
  let df := mkDataFrame 1
              {[ abstract_column := [Some (py "TP53 induces apoptosis.")] ]} in
  (∃ df', Analyzer.batch_analyze chat true id df 0 = inr df' ∧
          row_get df' 0 answer_column None = Some []) ∧
  row_get df 0 abstract_column None = Some (py "TP53 induces apoptosis.") ∧
  chat 0 (py "TP53 induces apoptosis.") = inr (py "  ").
Proof.
  split; [|done]. eexists. split; [by vm_compute|]. by vm_compute.
Qed.

(** C6 (amended).  For every table with its [Abstract] column, in the
    parallel mode (whatever the order in which the rows complete) and
    in the sequential mode, [batch_analyze] returns the table, with the
    result column in place: every row from [start_row] on holds the
    result string of its own request, the rows before it and all other
    columns are as they were.  The result of a row is the empty string
    exactly when its abstract is missing or empty, its request raised,
    or the reply is empty after trimming. *)
Theorem batch_analyze_every_row :
  ∀ (chat : nat → pystr → exn + pystr) (use_parallel : bool)
    (as_completed : list nat → list nat)
    (df : DataFrame) (start_row : Z) (abs_col : list cell),
    (∀ l, as_completed l ≡ₚ l) →
    columns df !! abstract_column = Some abs_col →
    (∀ c col, columns df !! c = Some col → length col = n_rows df) →
    (∃ df' ans',
       Analyzer.batch_analyze chat use_parallel as_completed df start_row
         = inr df' ∧
       n_rows df' = n_rows df ∧
       columns df' !! answer_column = Some ans' ∧
       length ans' = n_rows df ∧
       (∀ c, c ≠ answer_column → columns df' !! c = columns df !! c) ∧
       (∀ i, i < n_rows df → (start_row ≤ Z.of_nat i)%Z →
             ans' !! i = Some (Some (Analyzer.analyze_abstract chat i
                                       (default None (abs_col !! i))))) ∧
       (∀ i, i < n_rows df → (Z.of_nat i < start_row)%Z →
             ans' !! i = match columns df !! answer_column with
                         | Some ans => ans !! i
                         | None => Some (Some [])
                         end)) ∧
    (∀ i abstract,
       Analyzer.analyze_abstract chat i abstract = [] ↔
       abstract = None ∨ abstract = Some [] ∨
       (∃ e, chat i (str abstract) = inl e) ∨
       (∃ content, chat i (str abstract) = inr content ∧
                   PyStr.strip content = [])).
Proof.
  intros chat use_parallel as_completed df start_row abs_col Hperm Habs Hwf.
  split.
  - by apply batch_analyze_result.
  - apply analyze_abstract_empty.
Qed.

Lemma batch_analyze_every_row_witness :
  let chat : nat → pystr → exn + pystr :=
    λ i _, if decide (i = 0) then inl (Raised (py "timeout"))
           else inr (py " (TP53, apoptosis) ") in
  let df := mkDataFrame 2
              {[ abstract_column := [Some (py "first"); Some (py "second")] ]} in
  ∃ df' ans',
    Analyzer.batch_analyze chat true reverse df 0 = inr df' ∧
    columns df' !! answer_column = Some ans' ∧
    ans' !! 0 = Some (Some []) ∧
    ans' !! 1 = Some (Some (py "(TP53, apoptosis)")).
Proof.
  intros chat df.
  destruct (batch_analyze_every_row chat true reverse df 0
              [Some (py "first"); Some (py "second")])
    as [(df' & ans' & Hrun & _ & Hans & _ & _ & Hnew & _) _].
  - intros l. apply reverse_Permutation.
  - done.
  - intros c col H. unfold df in H. simpl in H.
    apply lookup_singleton_Some in H as [_ <-]. done.
  - exists df', ans'. split; [done|]. split; [done|]. split.
    + rewrite (Hnew 0) by (simpl; lia). done.
    + rewrite (Hnew 1) by (simpl; lia). by vm_compute.
Defined.

(* ===================================================================== *)
(** ** Pipeline orchestration: proofs *)
(* ===================================================================== *)

Section core_facts.
Import Core.

Context {NetStats : Type}.
Implicit Types r : Results NetStats.
Implicit Types s : state NetStats.











End core_facts.

Section pipeline_facts.
Import Core.

Context {NetStats : Type}.
Context (search_and_save :
           pystr → option Z → exn + (DataFrame * option pystr)).
Context (batch_analyze : DataFrame → exn + DataFrame).
Context (save_results : DataFrame → pystr → exn + pystr).
Context (process_entities :
           DataFrame → exn + (DataFrame * list pystr * PyDict.t)).
Context (save_processed_data : DataFrame → pystr → exn + pystr).
Context (create_full_network : DataFrame → pystr → exn + pystr).
Context (create_filtered_network :
           DataFrame → pystr → pystr → Z → option (list pystr) →
           exn + (pystr * list pystr)).
Context (analyze_network_structure : DataFrame → exn + NetStats).
Context (generate_summary : list pystr → pystr → exn + pystr).
Context (generate_full_report :
           Z → Z → Z → NetStats → pystr → pystr → exn + pystr).
Context (save_results_json : Results NetStats → pystr → exn + pystr).

Local Abbreviation run := (run_pipeline NetStats search_and_save batch_analyze
  save_results process_entities save_processed_data create_full_network
  create_filtered_network analyze_network_structure generate_summary
  generate_full_report save_results_json).

Local Abbreviation build := (build_knowledge_graph NetStats search_and_save
  batch_analyze save_results process_entities save_processed_data
  create_full_network create_filtered_network analyze_network_structure
  generate_summary generate_full_report save_results_json).







(** An instance: the entity stage raises after the first two stages
    went through. *)
Lemma entity_stage_failure kw max_results exclude_entities depth
    df search_file df' causal_file msg :
  search_and_save kw max_results = inr (df, search_file) →
  df_empty df = false →
  batch_analyze df = inr df' →
  save_results df' kw = inr causal_file →
  process_entities df' = inl (Raised msg) →
  build kw max_results exclude_entities depth
  = mkResults _ kw
      (<[py "causal_analysis" := Some causal_file]>
         (<[py "search_results" := search_file]> ∅))
      (<[py "total_articles" := StatInt (len_df df)]> ∅)
      None None None (Some msg).
Proof.
  intros H1 H2 H3 H4 H5.
  unfold build_knowledge_graph, run_pipeline, pipeline.
  unfold mbind, M_bind, bind, call, write, read, mret, M_ret, ret.
  rewrite H1. cbn beta iota zeta delta [current earlier fst snd].
  rewrite H2, H3, H4. cbn beta iota zeta delta [current earlier fst snd].
  by rewrite H5.
Qed.

End pipeline_facts.



(* ===================================================================== *)
(** ** Further properties of processor.py *)
(* ===================================================================== *)

Section similarity_facts.
Import Processor.

Variable ratio_exceeds_threshold : nat → nat → bool.
Variable model : option (list pystr → nat → nat → bool).

(** The string-fallback similarity does not depend on the order of its
    arguments. *)
Theorem is_similar_symmetric s1 s2 :
  _is_similar ratio_exceeds_threshold s1 s2
  = _is_similar ratio_exceeds_threshold s2 s1.
Proof.
  unfold _is_similar.
  rewrite (orb_comm (PyStr.contains (PyStr.lower s1) (PyStr.lower s2))).
  destruct (_ || _); [done|].
  set (w1 := list_to_set (PyStr.split (PyStr.lower s1)) : gset pystr).
  set (w2 := list_to_set (PyStr.split (PyStr.lower s2)) : gset pystr).
  assert (w1 ∩ w2 = w2 ∩ w1) as -> by set_solver.
  assert (w1 ∪ w2 = w2 ∪ w1) as -> by set_solver.
  done.
Qed.

(** A string that occurs in another, case ignored, is similar to it
    whatever the threshold; so every string is similar to itself and the
    empty string to every string. *)
Theorem is_similar_substring s1 s2 :
  is_substring (PyStr.lower s1) (PyStr.lower s2) →
  _is_similar ratio_exceeds_threshold s1 s2 = true ∧
  _is_similar ratio_exceeds_threshold s2 s1 = true.
Proof.
  intros H%contains_substring. unfold _is_similar.
  rewrite H. by rewrite orb_true_r.
Qed.

(** Every entry of the map relates two entities of the list that were
    judged similar. *)
Theorem map_entries_from_list entities k v :
  maps_to (find_similar_entities ratio_exceeds_threshold model entities) k v →
  k ∈ entities ∧ v ∈ entities ∧
  ∃ i j, i < j ∧ j < length entities ∧
         judged_similar ratio_exceeds_threshold model entities i j = true ∧
         ((k = entities !!! j ∧ v = entities !!! i) ∨
          (k = entities !!! i ∧ v = entities !!! j)).
Proof.
  intros (i & j & Hij & Hj & Hjudged & H)%maps_to_origin.
  assert (Hi' : entities !!! i ∈ entities).
  { apply list_elem_of_lookup_total_2. lia. }
  assert (Hj' : entities !!! j ∈ entities).
  { by apply list_elem_of_lookup_total_2. }
  destruct H as [[[= -> ->] _]|[[= -> ->] _]];
    (split; [done|split; [done|]]); exists i, j; naive_solver.
Qed.

End similarity_facts.

Lemma is_similar_substring_witness :
  Processor._is_similar (λ _ _, false) (py "p53") (py "P53 protein") = true ∧
  Processor._is_similar (λ _ _, false) (py "P53 protein") (py "p53") = true.
Proof.
  apply is_similar_substring. by exists [], (py " protein").
Defined.

Lemma map_entries_from_list_witness :
  py "abc" ∈ [py "ab"; py "abc"] ∧ py "ab" ∈ [py "ab"; py "abc"] ∧
  ∃ i j, i < j ∧ j < length [py "ab"; py "abc"] ∧
         judged_similar (λ _ _, false) None [py "ab"; py "abc"] i j = true ∧
         ((py "abc" = [py "ab"; py "abc"] !!! j ∧
           py "ab" = [py "ab"; py "abc"] !!! i) ∨
          (py "abc" = [py "ab"; py "abc"] !!! i ∧
           py "ab" = [py "ab"; py "abc"] !!! j)).
Proof.
  apply (map_entries_from_list (λ _ _, false) None).
  by vm_compute.
Defined.

Section dedup_more.
Import Processor.

Variable ratio_exceeds_threshold : nat → nat → bool.
Variable model : option (list pystr → nat → nat → bool).

Lemma set_not_empty k v d : PyDict.set k v d ≠ [].
Proof.
  destruct d as [|[k' v'] d]; simpl; [done|]. by destruct (decide (k' = k)).
Qed.

Lemma keep_shorter_not_empty ei ej d : keep_shorter ei ej d ≠ [].
Proof.
  unfold keep_shorter. destruct (_ <=? _); apply set_not_empty.
Qed.

(** The map is empty exactly when no two entities of the list are
    judged similar. *)
Theorem no_similar_pair_empty_map entities :
  find_similar_entities ratio_exceeds_threshold model entities = [] ↔
  ∀ i j, i < j → j < length entities →
         judged_similar ratio_exceeds_threshold model entities i j = false.
Proof.
  rewrite find_similar_entities_pair_loop. split.
  - intros Hempty i j Hij Hj.
    destruct (judged_similar _ _ _ i j) eqn:Hjudged; [|done].
    exfalso. revert Hempty.
    apply (pair_loop_visits (λ d, d ≠ []) _ _ i j); try done.
    + intros d. apply keep_shorter_not_empty.
    + intros d i' j' _. apply keep_shorter_not_empty.
  - intros Hno. apply (pair_loop_inv (λ d, d = [])); [done|].
    intros d i j _ Hij Hj Hjudged. by rewrite Hno in Hjudged.
Qed.

End dedup_more.

Section substitute_more.
Import Processor.

(** A text in which no key of the map occurs is left as it is. *)
Theorem substitute_cell_no_occurrence similar_phrases value :
  (∀ k v, (k, v) ∈ similar_phrases → PyStr.contains k value = false) →
  substitute_cell similar_phrases value = value.
Proof.
  unfold substitute_cell, PyDict.items.
  induction similar_phrases as [|[k v] rest IH]; intros Hno; simpl; [done|].
  rewrite replace_absent by (apply (Hno k v); by left).
  apply IH. intros k' v' Hin. apply (Hno k' v'). by right.
Qed.

Lemma foldl_raised {B} (f : exn + DataFrame → B → exn + DataFrame) e l :
  (∀ e b, f (inl e) b = inl e) → foldl f (inl e) l = inl e.
Proof.
  intros Hf. induction l as [|b l IH]; simpl; [done|]. by rewrite Hf.
Qed.

(** Without the column, a non-empty map makes the first row raise
    [KeyError], unless the table has no row, which comes back as it is. *)
Theorem substitute_missing_column df similar_phrases column :
  similar_phrases ≠ [] →
  columns df !! column = None →
  substitute_similar_entities df similar_phrases column
  = if decide (n_rows df = 0) then inr df else inl (KeyError column).
Proof.
  intros Hne Hcol. unfold substitute_similar_entities.
  destruct similar_phrases as [|kv rest]; [done|].
  destruct (n_rows df) as [|n] eqn:Hn; [done|].
  rewrite decide_False by done.
  change (seq 0 (S n)) with (0 :: seq 1 n). cbn [foldl].
  unfold row_item at 2. rewrite Hcol.
  apply foldl_raised. by intros e b.
Qed.

Variable ratio_exceeds_threshold : nat → nat → bool.
Variable model : option (list pystr → nat → nat → bool).

(** On a table whose result column, if there is one, has one cell per
    row, [process_entities] does not raise: it returns the rewritten
    table, the entities extracted from it, and the map computed from
    the entities of the original table.  The rewriting touches the
    result column only. *)
Theorem process_entities_returns df :
  (∀ col, columns df !! answer_column = Some col → length col = n_rows df) →
  ∃ processed_df,
    process_entities ratio_exceeds_threshold model df
    = inr (processed_df,
           extract_entities processed_df answer_column,
           find_similar_entities ratio_exceeds_threshold model
             (extract_entities df answer_column)) ∧
    n_rows processed_df = n_rows df ∧
    (∀ c, c ≠ answer_column → columns processed_df !! c = columns df !! c) ∧
    (columns df !! answer_column = None → processed_df = df).
Proof.
  intros Hwf. unfold process_entities.
  set (sp := find_similar_entities ratio_exceeds_threshold model
               (extract_entities df answer_column)).
  destruct (columns df !! answer_column) as [col|] eqn:Hcol.
  - destruct sp as [|kv rest] eqn:Hsp.
    + exists df. by repeat split.
    + rewrite (substitute_result df (kv :: rest) answer_column col)
        by (done || by apply Hwf).
      eexists. split; [done|]. simpl. split; [done|]. split; [|done].
      intros c Hc. by rewrite lookup_insert_ne.
  - assert (sp = []) as ->.
    { unfold sp, extract_entities. by rewrite Hcol. }
    exists df. by repeat split.
Qed.

End substitute_more.

Lemma substitute_cell_no_occurrence_witness :
  Processor.substitute_cell [(py "abc", py "ab"); (py "abcd", py "abc")]
    (py "(TP53, apoptosis)")
  = py "(TP53, apoptosis)".
Proof.
  apply substitute_cell_no_occurrence.
  intros k v Hin.
  apply elem_of_cons in Hin as [[= -> ->]|Hin]; [by vm_compute|].
  apply elem_of_cons in Hin as [[= -> ->]|Hin]; [by vm_compute|].
  by inversion Hin.
Defined.

Lemma substitute_missing_column_witness :
  Processor.substitute_similar_entities
    (mkDataFrame 2 {[ title_column := [Some (py "t1"); Some (py "t2")] ]})
    [(py "abc", py "ab")] answer_column
  = inl (KeyError answer_column).
Proof.
  rewrite substitute_missing_column; [done|done|by vm_compute].
Defined.

Lemma process_entities_returns_witness :
  ∃ processed_df,
    Processor.process_entities (λ _ _, false) None
      (mkDataFrame 1 {[ answer_column := [Some (py "(abcd, abc)")] ]})
    = inr (processed_df,
           Processor.extract_entities processed_df answer_column,
           Processor.find_similar_entities (λ _ _, false) None
             (Processor.extract_entities
                (mkDataFrame 1 {[ answer_column := [Some (py "(abcd, abc)")] ]})
                answer_column)) ∧
    n_rows processed_df = 1.
Proof.
  destruct (process_entities_returns (λ _ _, false) None
              (mkDataFrame 1 {[ answer_column := [Some (py "(abcd, abc)")] ]}))
    as (processed_df & Hrun & Hn & _).
  - intros col H. simpl in H. apply lookup_singleton_Some in H as [_ <-]. done.
  - exists processed_df. split; [exact Hrun|exact Hn].
Defined.

(* ===================================================================== *)
(** ** Further properties of visualizer.py *)
(* ===================================================================== *)

Section graph_more.
Import Visualizer.

Lemma edge_title_add_node n l (G : Graph) u v :
  dom (adj G) = dom (nodes G) →
  edge_title (add_node n l G) u v = edge_title G u v.
Proof.
  intros Hdom. unfold edge_title, add_node. simpl.
  destruct (nodes G !! n) as [a|] eqn:Hn; [done|].
  assert (Hadj : adj G !! n = None).
  { apply not_elem_of_dom. rewrite Hdom. by apply not_elem_of_dom. }
  destruct (decide (n = u)) as [<-|Hne].
  - by rewrite lookup_insert_eq, Hadj.
  - by rewrite lookup_insert_ne.
Qed.

Lemma dom_add_node n l (G : Graph) :
  dom (adj G) = dom (nodes G) →
  dom (adj (add_node n l G)) = dom (nodes (add_node n l G)).
Proof.
  intros Hdom. unfold add_node. simpl. rewrite dom_insert_L.
  destruct (nodes G !! n) as [a|] eqn:Hn.
  - rewrite Hdom. apply elem_of_dom_2 in Hn. set_solver.
  - rewrite dom_insert_L. by rewrite Hdom.
Qed.

Lemma touch_node_present n (G : Graph) :
  is_Some (nodes G !! n) → touch_node n G = G.
Proof. intros [a Ha]. unfold touch_node. by rewrite Ha. Qed.

Lemma edge_title_add_edge a b t (G : Graph) u v :
  is_Some (nodes G !! a) → is_Some (nodes G !! b) →
  edge_title (add_edge a b t G) u v
  = if decide ((u = a ∧ v = b) ∨ (u = b ∧ v = a)) then Some t
    else edge_title G u v.
Proof.
  intros Ha Hb. unfold add_edge.
  rewrite (touch_node_present a G Ha), (touch_node_present b G Hb).
  unfold edge_title. simpl.
  destruct (decide (u = b)) as [->|Hub].
  - rewrite lookup_insert_eq. simpl.
    destruct (decide (v = a)) as [->|Hva].
    + rewrite lookup_insert_eq. by rewrite decide_True by auto.
    + rewrite lookup_insert_ne by done.
      destruct (decide (b = a)) as [->|Hba].
      * rewrite lookup_insert_eq. simpl. rewrite lookup_insert_ne by done.
        rewrite decide_False by naive_solver.
        by destruct (adj G !! a).
      * rewrite lookup_insert_ne by done.
        rewrite decide_False by naive_solver.
        by destruct (adj G !! b).
  - rewrite lookup_insert_ne by done.
    destruct (decide (u = a)) as [->|Hua].
    + rewrite lookup_insert_eq. simpl.
      destruct (decide (v = b)) as [->|Hvb].
      * rewrite lookup_insert_eq. by rewrite decide_True by auto.
      * rewrite lookup_insert_ne by done.
        rewrite decide_False by naive_solver.
        by destruct (adj G !! a).
    + rewrite lookup_insert_ne by done.
      by rewrite decide_False by naive_solver.
Qed.

Lemma dom_add_edge a b t (G : Graph) :
  is_Some (nodes G !! a) → is_Some (nodes G !! b) →
  dom (adj G) = dom (nodes G) →
  dom (adj (add_edge a b t G)) = dom (nodes (add_edge a b t G)) ∧
  nodes (add_edge a b t G) = nodes G.
Proof.
  intros Ha Hb Hdom. unfold add_edge.
  rewrite (touch_node_present a G Ha), (touch_node_present b G Hb). simpl.
  split; [|done]. rewrite !dom_insert_L, Hdom.
  apply elem_of_dom in Ha, Hb. set_solver.
Qed.

(** The graph after an accepted triple. *)
Lemma add_match_accepted_graph exclude source (G : Graph) mt :
  let a := PyStr.strip mt.1 in
  let b := PyStr.strip mt.2 in
  accepted exclude a b = true →
  dom (adj G) = dom (nodes G) →
  let G' := add_match exclude source G mt in
  dom (adj G') = dom (nodes G') ∧
  (∀ n, nodes G' !! n =
        if decide (n = b) then Some (Some b)
        else if decide (n = a) then Some (Some a) else nodes G !! n) ∧
  (∀ u v, edge_title G' u v =
          if decide ((u = a ∧ v = b) ∨ (u = b ∧ v = a)) then Some source
          else edge_title G u v).
Proof.
  intros a b Hacc Hdom G'. subst G'. unfold add_match. fold a b.
  rewrite Hacc. clearbody a b.
  set (G1 := add_node b b (add_node a a G)).
  assert (Hdom1 : dom (adj G1) = dom (nodes G1)).
  { by apply dom_add_node, dom_add_node. }
  assert (Hn1 : ∀ n, nodes G1 !! n =
            if decide (n = b) then Some (Some b)
            else if decide (n = a) then Some (Some a) else nodes G !! n).
  { intros n. unfold G1. rewrite !add_node_nodes.
    repeat case_decide; congruence. }
  assert (Ha : is_Some (nodes G1 !! a)).
  { rewrite Hn1. destruct (decide (a = b)); [done|]. by rewrite decide_True. }
  assert (Hb : is_Some (nodes G1 !! b)).
  { rewrite Hn1. by rewrite decide_True. }
  destruct (dom_add_edge a b source G1 Ha Hb Hdom1) as [Hd Hn].
  split; [done|]. split.
  - intros n. by rewrite Hn, Hn1.
  - intros u v. rewrite edge_title_add_edge by done.
    destruct (decide _); [done|].
    unfold G1. rewrite edge_title_add_node by (by apply dom_add_node).
    by rewrite edge_title_add_node.
Qed.

Lemma built_graph_empty : built_graph empty_graph.
Proof.
  assert (He : ∀ u v, edge_title empty_graph u v = None).
  { intros u v. unfold edge_title. simpl. by rewrite lookup_empty. }
  split; [|split; [|split; [|split]]].
  - simpl. by rewrite !dom_empty_L.
  - intros u v t. by rewrite He.
  - intros u v t. by rewrite He.
  - intros n attr. simpl. by rewrite lookup_empty.
  - intros n [? H]. simpl in H. by rewrite lookup_empty in H.
Qed.

Lemma built_graph_add_match exclude source (G : Graph) mt :
  built_graph G → built_graph (add_match exclude source G mt).
Proof.
  intros HG.
  destruct (accepted exclude (PyStr.strip mt.1) (PyStr.strip mt.2)) eqn:Hacc;
    [|by rewrite add_match_rejected].
  destruct HG as (Hdom & Hsym & Hends & Hlabel & Hedge).
  destruct (add_match_accepted_graph exclude source G mt Hacc Hdom)
    as (Hdom' & Hn' & He').
  set (a := PyStr.strip mt.1) in *. set (b := PyStr.strip mt.2) in *.
  split; [done|]. split; [|split; [|split]].
  - intros u v t. rewrite !He'.
    destruct (decide ((u = a ∧ v = b) ∨ (u = b ∧ v = a))) as [Huv|Huv].
    + intros Ht. by rewrite decide_True by tauto.
    + intros Ht. rewrite decide_False by tauto. by apply Hsym.
  - intros u v t. rewrite He', !Hn'.
    destruct (decide ((u = a ∧ v = b) ∨ (u = b ∧ v = a))) as [Huv|Huv].
    + intros _. split.
      * destruct (decide (u = b)); [done|].
        rewrite decide_True by naive_solver. done.
      * destruct (decide (v = b)); [done|].
        rewrite decide_True by naive_solver. done.
    + intros [Hu Hv]%Hends. split.
      * destruct (decide (u = b)); [done|]. by destruct (decide (u = a)).
      * destruct (decide (v = b)); [done|]. by destruct (decide (v = a)).
  - intros n attr. rewrite Hn'.
    destruct (decide (n = b)) as [->|]; [by intros [= <-]|].
    destruct (decide (n = a)) as [->|]; [by intros [= <-]|]. apply Hlabel.
  - intros n. rewrite Hn'.
    destruct (decide (n = b)) as [->|Hnb].
    + intros _. exists a, source. rewrite He'. by rewrite decide_True by auto.
    + destruct (decide (n = a)) as [->|Hna].
      * intros _. exists b, source. rewrite He'.
        by rewrite decide_True by auto.
      * intros (v & t & Hvt)%Hedge. exists v, t. rewrite He'.
        by rewrite decide_False by naive_solver.
Qed.

Lemma build_graph_shape df exclude_entities :
  built_graph (build_graph df exclude_entities).
Proof.
  unfold build_graph.
  apply (foldl_preserves built_graph (λ _, True));
    [apply built_graph_empty|by apply Forall_forall|].
  intros G i HG _. simpl.
  apply (foldl_preserves built_graph (λ _, True));
    [done|by apply Forall_forall|].
  intros G' mt HG' _. by apply built_graph_add_match.
Qed.

(** The graph that [create_filtered_network] builds is a well-formed
    undirected graph without isolated nodes. *)
Theorem build_graph_built df exclude_entities :
  built_graph (build_graph df exclude_entities).
Proof. apply build_graph_shape. Qed.

Lemma findall_nan : Regex.findall Regex.pattern (py "nan") = [].
Proof. by vm_compute. Qed.

Lemma row_value_in_column df i mt :
  mt ∈ Regex.findall Regex.pattern
         (str (row_get df i answer_column (Some []))) →
  ∃ col, columns df !! answer_column = Some col ∧
         str (row_get df i answer_column (Some [])) ∈ fillna_str <$> col.
Proof.
  unfold row_get. destruct (columns df !! answer_column) as [col|] eqn:Hcol.
  - destruct (col !! i) as [[s|]|] eqn:Hi; simpl.
    + intros _. exists col. split; [done|].
      apply list_elem_of_fmap. exists (Some s). split; [done|].
      by apply list_elem_of_lookup_2 in Hi.
    + intros H. exfalso. revert H.
      change (mt ∉ Regex.findall Regex.pattern (py "nan")).
      rewrite findall_nan. by inversion 1.
    + intros H. exfalso. revert H.
      change (mt ∉ Regex.findall Regex.pattern (py "nan")).
      rewrite findall_nan. by inversion 1.
  - simpl. by inversion 1.
Qed.

(** Every node of the graph is one of the entities that
    [extract_entities] finds in the result column. *)
Theorem graph_nodes_are_entities df exclude_entities n :
  is_Some (nodes (build_graph df exclude_entities) !! n) →
  n ∈ Processor.extract_entities df answer_column.
Proof.
  intros Hn. apply elem_of_extract_entities. revert n Hn.
  unfold build_graph.
  set (Q := λ G : Graph, ∀ n, is_Some (nodes G !! n) →
              n ≠ [] ∧ ∃ col, columns df !! answer_column = Some col ∧
                              entity_of_column col n).
  enough (HQ : Q (foldl (λ G i,
                  let value := str (row_get df i answer_column (Some [])) in
                  let source :=
                    str (row_get df i title_column (Some (py "Unknown"))) in
                  foldl (add_match exclude_entities source) G
                        (Regex.findall Regex.pattern value))
                empty_graph (seq 0 (n_rows df)))) by apply HQ.
  apply (foldl_preserves Q (λ _, True)).
  - intros m [? Hm]. simpl in Hm. by rewrite lookup_empty in Hm.
  - by apply Forall_forall.
  - intros G i HG _. simpl.
    apply (foldl_preserves Q
             (λ mt, mt ∈ Regex.findall Regex.pattern
                           (str (row_get df i answer_column (Some [])))));
      [done|by apply Forall_forall|].
    intros G' mt HG' Hmt m Hm.
    apply add_match_new_node in Hm as [Hm|[Hacc Hm]]; [by apply HG'|].
    apply accepted_true in Hacc. unfold rejected in Hacc.
    destruct (row_value_in_column df i mt Hmt) as (col & Hcol & Hval).
    split.
    + intros ->. destruct Hm as [Hm|Hm]; rewrite <- Hm in Hacc; tauto.
    + exists col. split; [done|].
      exists (str (row_get df i answer_column (Some []))),
             (PyStr.strip mt.1, PyStr.strip mt.2).
      split; [done|]. split; [|done].
      apply elem_of_extract_pairs. by exists mt.
Qed.

Lemma foldl_related {A B C} (R : A → B → Prop) (f : A → C → A)
    (g : B → C → B) l a b :
  R a b → (∀ a b c, R a b → R (f a c) (g b c)) →
  R (foldl f a l) (foldl g b l).
Proof.
  intros Hab Hstep. revert a b Hab.
  induction l as [|c l IH]; intros a b Hab; simpl; [done|].
  apply IH. by apply Hstep.
Qed.

Lemma accepted_clean exclude a b :
  accepted exclude a b = true ↔
  a ≠ [] ∧ b ≠ [] ∧ clean exclude a ∧ clean exclude b.
Proof.
  rewrite accepted_true. unfold rejected, clean. split.
  - intros Hno. repeat split; try (intros ?; apply Hno; tauto).
    + intros exc Hin Hs. apply Hno. right. right. exists exc. tauto.
    + intros exc Hin Hs. apply Hno. right. right. exists exc. tauto.
  - intros (Ha & Hb & Hca & Hcb) [?|[?|(exc & Hin & [Hs|Hs])]]; try done.
    + by apply (Hca exc).
    + by apply (Hcb exc).
Qed.

(** Excluding entities leaves exactly the edges of the unfiltered graph
    whose two ends are clean, each with its title; the nodes are the
    ends of these edges. *)
Theorem exclusion_restricts_graph df exclude_entities :
  (∀ u v t,
     edge_title (build_graph df exclude_entities) u v = Some t ↔
     edge_title (build_graph df []) u v = Some t ∧
     clean exclude_entities u ∧ clean exclude_entities v) ∧
  (∀ n,
     is_Some (nodes (build_graph df exclude_entities) !! n) ↔
     ∃ v t, edge_title (build_graph df exclude_entities) n v = Some t).
Proof.
  split.
  - unfold build_graph.
    set (R := λ Ge G0 : Graph,
           dom (adj Ge) = dom (nodes Ge) ∧ dom (adj G0) = dom (nodes G0) ∧
           ∀ u v t, edge_title Ge u v = Some t ↔
                    edge_title G0 u v = Some t ∧
                    clean exclude_entities u ∧ clean exclude_entities v).
    enough (HR : R
      (foldl (λ G i,
                let value := str (row_get df i answer_column (Some [])) in
                let source :=
                  str (row_get df i title_column (Some (py "Unknown"))) in
                foldl (add_match exclude_entities source) G
                      (Regex.findall Regex.pattern value))
             empty_graph (seq 0 (n_rows df)))
      (foldl (λ G i,
                let value := str (row_get df i answer_column (Some [])) in
                let source :=
                  str (row_get df i title_column (Some (py "Unknown"))) in
                foldl (add_match [] source) G
                      (Regex.findall Regex.pattern value))
             empty_graph (seq 0 (n_rows df)))) by apply HR.
    apply foldl_related.
    { split; [by destruct built_graph_empty|].
      split; [by destruct built_graph_empty|].
      intros u v t. unfold edge_title. simpl. rewrite lookup_empty. simpl.
      naive_solver. }
    intros Ge G0 i HR. simpl. apply foldl_related; [done|].
    clear Ge G0 HR. intros Ge G0 mt (Hde & Hd0 & Hiff).
    set (a := PyStr.strip mt.1). set (b := PyStr.strip mt.2).
    set (source := str (row_get df i title_column (Some (py "Unknown")))).
    destruct (accepted [] a b) eqn:Hacc0.
    + destruct (add_match_accepted_graph [] source G0 mt Hacc0 Hd0)
        as (Hd0' & _ & He0').
      fold a b in He0'.
      destruct (accepted exclude_entities a b) eqn:Hacce.
      * destruct (add_match_accepted_graph exclude_entities source Ge mt
                    Hacce Hde) as (Hde' & _ & Hee').
        fold a b in Hee'.
        split; [done|]. split; [done|]. intros u v t. rewrite Hee', He0'.
        apply accepted_clean in Hacce as (_ & _ & Hca & Hcb).
        destruct (decide _) as [[[-> ->]|[-> ->]]|Hno];
          [naive_solver..|apply Hiff].
      * rewrite (add_match_rejected exclude_entities) by done.
        split; [done|]. split; [done|]. intros u v t. rewrite He0'.
        assert (Hdirty : ¬ (clean exclude_entities a ∧ clean exclude_entities b)).
        { intros [Hca Hcb]. apply accepted_clean in Hacc0 as (Ha & Hb & _).
          assert (accepted exclude_entities a b = true)
            by (by apply accepted_clean).
          congruence. }
        destruct (decide _) as [[[-> ->]|[-> ->]]|Hno]; [| |apply Hiff].
        -- rewrite Hiff. naive_solver.
        -- rewrite Hiff. naive_solver.
    + assert (Hacce : accepted exclude_entities a b = false).
      { destruct (accepted exclude_entities a b) eqn:Hx; [|done].
        apply accepted_clean in Hx as (Ha & Hb & _).
        assert (accepted [] a b = true).
        { apply accepted_clean. repeat split; try done; by inversion 1. }
        congruence. }
      rewrite (add_match_rejected exclude_entities),
              (add_match_rejected []) by done.
      done.
  - intros n.
    destruct (build_graph_shape df exclude_entities)
      as (_ & _ & Hends & _ & Hedge).
    split; [apply Hedge|]. intros (v & t & H). by apply Hends in H as [? _].
Qed.

Lemma within_mono (G : Graph) seeds d d' n :
  d ≤ d' → within G seeds d n → within G seeds d' n.
Proof.
  intros Hle. induction Hle as [|d' _ IH]; intros Hw; [done|].
  by apply within_S, IH.
Qed.

(** A deeper search returns a larger graph: every node and edge found
    at a depth is found at every greater depth. *)
Theorem search_monotone_in_depth (G : Graph) keyword d d' :
  d ≤ d' →
  nodes (_search_network G keyword d) ⊆ nodes (_search_network G keyword d') ∧
  ∀ u v t, edge_title (_search_network G keyword d) u v = Some t →
           edge_title (_search_network G keyword d') u v = Some t.
Proof.
  intros Hd. split.
  - apply map_subseteq_spec. intros n attr [Hn Hw]%search_nodes.
    apply search_nodes. split; [done|]. by apply (within_mono _ _ d).
  - intros u v t (Ht & [Hu Hud] & [Hv Hvd])%search_edge.
    apply search_edge. split; [done|].
    split; (split; [by apply (within_mono _ _ d)|done]).
Qed.

Lemma keyword_nodes_empty_keyword (G : Graph) :
  keyword_nodes G [] = dom (nodes G).
Proof.
  apply set_eq. intros n. rewrite elem_of_keyword_nodes, elem_of_dom.
  unfold label_matches. split.
  - intros (attr & Hn & _). by exists attr.
  - intros [attr Hn]. exists attr. split; [done|].
    by exists [], (PyStr.lower (label_of attr)).
Qed.

Lemma rounds_include_seeds (G : Graph) seeds k : seeds ⊆ Nat.iter k (expand G) seeds.
Proof.
  intros n Hn. apply elem_of_rounds. by apply within_seed.
Qed.

(** With the empty keyword every node is a seed, and the search gives
    back the graph that was built, whatever the depth. *)
Theorem empty_keyword_returns_graph df depth exclude_entities :
  create_filtered_network df [] depth exclude_entities
  = build_graph df (default [] exclude_entities).
Proof.
  unfold create_filtered_network.
  set (G := build_graph df (default [] exclude_entities)).
  destruct (build_graph_shape df (default [] exclude_entities))
    as (Hdom & _ & Hends & _ & _). fold G in Hdom, Hends.
  unfold _search_network. rewrite keyword_nodes_empty_keyword.
  destruct (decide (dom (nodes G) = ∅)) as [He|Hne].
  - destruct G as [ns ad]. simpl in *. unfold empty_graph.
    rewrite He in Hdom. apply dom_empty_inv_L in He, Hdom. by subst.
  - set (keep := Nat.iter depth (expand G) (dom (nodes G))).
    assert (Hkeep : ∀ n, n ∈ dom (nodes G) → n ∈ keep).
    { intros n Hn. by apply rounds_include_seeds. }
    unfold subgraph. destruct G as [ns ad] eqn:HG. simpl in *. f_equal.
    + apply map_filter_id. intros n attr Hn. simpl.
      apply Hkeep. by apply elem_of_dom_2 in Hn.
    + apply map_eq. intros u. rewrite lookup_fmap.
      rewrite map_filter_id.
      * destruct (ad !! u) as [nbrs|] eqn:Hu; simpl; [|done]. f_equal.
        apply map_filter_id. intros v t Hv. simpl.
        assert (Hn : is_Some (ns !! v)).
        { apply (Hends u v t). unfold edge_title. simpl. by rewrite Hu. }
        apply elem_of_dom in Hn. split; [by apply Hkeep|done].
      * intros n nbrs Hn. simpl. apply elem_of_dom_2 in Hn.
        rewrite Hdom in Hn. split; [by apply Hkeep|done].
Qed.

(** The filtered network is empty exactly when the keyword, case
    ignored, occurs in no node name of the graph. *)
Theorem filtered_network_empty_iff df search_keyword depth exclude_entities :
  create_filtered_network df search_keyword depth exclude_entities
    = empty_graph ↔
  ∀ n, is_Some (nodes (build_graph df (default [] exclude_entities)) !! n) →
       ¬ is_substring (PyStr.lower search_keyword) (PyStr.lower n).
Proof.
  unfold create_filtered_network.
  set (G := build_graph df (default [] exclude_entities)).
  destruct (build_graph_shape df (default [] exclude_entities))
    as (_ & _ & _ & Hlabel & _). fold G in Hlabel.
  split.
  - intros Hempty n [attr Hn] Hsub.
    assert (Hseed : n ∈ keyword_nodes G search_keyword).
    { apply elem_of_keyword_nodes. exists attr. split; [done|].
      by rewrite (Hlabel n attr Hn). }
    assert (Hres : nodes (_search_network G search_keyword depth) !! n
                   = Some attr).
    { apply search_nodes. split; [done|]. by apply within_seed. }
    rewrite Hempty in Hres. simpl in Hres. by rewrite lookup_empty in Hres.
  - intros Hno. apply search_no_seed. apply set_eq. intros n.
    rewrite elem_of_keyword_nodes. split; [|set_solver].
    intros (attr & Hn & Hsub). exfalso. apply (Hno n); [by exists attr|].
    by rewrite (Hlabel n attr Hn) in Hsub.
Qed.

Lemma rounds_stable (G : Graph) (X : gset pystr) k :
  expand G X = X → Nat.iter k (expand G) X = X.
Proof. intros HX. induction k as [|k IH]; simpl; [done|]. by rewrite IH. Qed.

(** Once a round of the expansion adds no node, no greater depth
    changes the result. *)
Theorem search_stable_after_fixpoint (G : Graph) keyword d k :
  Nat.iter (S d) (expand G) (keyword_nodes G keyword)
    = Nat.iter d (expand G) (keyword_nodes G keyword) →
  _search_network G keyword (d + k) = _search_network G keyword d.
Proof.
  intros Hfix. unfold _search_network.
  destruct (decide _); [done|]. f_equal.
  rewrite Nat.add_comm, Nat.iter_add. by apply rounds_stable.
Qed.

End graph_more.

Lemma graph_nodes_are_entities_witness :
  py "TP53" ∈ Processor.extract_entities
    (mkDataFrame 1 {[ answer_column := [Some (py "(TP53, apoptosis)")] ]})
    answer_column.
Proof.
  apply (graph_nodes_are_entities _ []).
  eexists. by vm_compute.
Defined.

Lemma search_monotone_in_depth_witness :
  Visualizer.nodes (Visualizer._search_network path_ABC (py "A") 0)
    ⊆ Visualizer.nodes (Visualizer._search_network path_ABC (py "A") 1) ∧
  ∀ u v t,
    edge_title (Visualizer._search_network path_ABC (py "A") 0) u v = Some t →
    edge_title (Visualizer._search_network path_ABC (py "A") 1) u v = Some t.
Proof. apply search_monotone_in_depth. lia. Defined.

Lemma search_stable_after_fixpoint_witness :
  Visualizer._search_network path_ABC (py "A") (2 + 3)
  = Visualizer._search_network path_ABC (py "A") 2.
Proof. apply search_stable_after_fixpoint. by vm_compute. Defined.

(* ===================================================================== *)
(** ** Further properties of analyzer.py *)
(* ===================================================================== *)

Section analyzer_more.
Import Analyzer.

Variable chat : nat → pystr → exn + pystr.

(** With the [Abstract] column in place, the parallel mode, whatever
    the order in which its rows complete, and the sequential mode
    return the same table. *)
Theorem parallel_equals_sequential as_completed as_completed' df start_row
    abs_col :
  (∀ l, as_completed l ≡ₚ l) →
  columns df !! abstract_column = Some abs_col →
  (∀ c col, columns df !! c = Some col → length col = n_rows df) →
  batch_analyze chat true as_completed df start_row
  = batch_analyze chat false as_completed' df start_row.
Proof.
  intros Hperm Habs Hwf.
  destruct (batch_analyze_result chat true as_completed df start_row abs_col
              Hperm Habs Hwf)
    as ([n1 c1] & a1 & -> & Hn1 & Ha1 & Hl1 & Ho1 & Hnew1 & Hold1).
  destruct (batch_analyze_result chat false as_completed df start_row abs_col
              Hperm Habs Hwf)
    as ([n2 c2] & a2 & Hrun2 & Hn2 & Ha2 & Hl2 & Ho2 & Hnew2 & Hold2).
  assert (Hsame : batch_analyze chat false as_completed' df start_row
                  = batch_analyze chat false as_completed df start_row).
  { unfold batch_analyze. by destruct (filter _ _). }
  rewrite Hsame, Hrun2. simpl in *. subst n1 n2. do 2 f_equal.
  apply map_eq. intros c. destruct (decide (c = answer_column)) as [->|Hc].
  - rewrite Ha1, Ha2. f_equal. apply list_eq. intros i.
    destruct (decide (i < n_rows df)) as [Hi|Hi].
    + destruct (decide (start_row ≤ Z.of_nat i)%Z).
      * by rewrite Hnew1, Hnew2.
      * by rewrite Hold1, Hold2 by lia.
    + by rewrite !lookup_ge_None_2 by lia.
  - by rewrite Ho1, Ho2.
Qed.

(** Without the [Abstract] column, and with a row to process, the
    sequential mode raises the [KeyError] of the first row, while the
    parallel mode catches it in every worker and leaves the empty
    string in every processed row. *)
Theorem batch_analyze_without_abstract as_completed df start_row i0 :
  (∀ l, as_completed l ≡ₚ l) →
  columns df !! abstract_column = None →
  (∀ c col, columns df !! c = Some col → length col = n_rows df) →
  i0 < n_rows df → (start_row ≤ Z.of_nat i0)%Z →
  batch_analyze chat false as_completed df start_row
    = inl (KeyError abstract_column) ∧
  ∃ df' ans',
    batch_analyze chat true as_completed df start_row = inr df' ∧
    columns df' !! answer_column = Some ans' ∧
    ∀ i, i < n_rows df → (start_row ≤ Z.of_nat i)%Z →
         ans' !! i = Some (Some []).
Proof.
  intros Hperm Habs Hwf Hi0 Hs0. unfold batch_analyze.
  set (df1 := match columns df !! answer_column with
              | Some _ => df
              | None => set_column df answer_column (Some [])
              end).
  set (ans := default (replicate (n_rows df) (Some []))
                      (columns df !! answer_column)).
  assert (Hn1 : n_rows df1 = n_rows df).
  { unfold df1. by destruct (columns df !! answer_column). }
  assert (Hans : columns df1 !! answer_column = Some ans).
  { unfold df1, ans. destruct (columns df !! answer_column) eqn:Ha; [done|].
    simpl. by rewrite lookup_insert_eq. }
  assert (Hlen : length ans = n_rows df).
  { unfold ans. destruct (columns df !! answer_column) eqn:Ha; simpl.
    - by apply (Hwf answer_column).
    - by rewrite length_replicate. }
  assert (Habs1 : columns df1 !! abstract_column = None).
  { unfold df1. destruct (columns df !! answer_column); [done|].
    simpl. rewrite lookup_insert_ne; [done|]. by vm_compute. }
  rewrite Hn1.
  set (rows := filter (λ i, (start_row ≤ Z.of_nat i)%Z) (seq 0 (n_rows df))).
  assert (Hrows : ∀ i, i ∈ rows ↔ i < n_rows df ∧ (start_row ≤ Z.of_nat i)%Z).
  { intros i. unfold rows. rewrite list_elem_of_filter, elem_of_seq. lia. }
  destruct rows as [|r0 rows'] eqn:Hrows_eq.
  { assert (i0 ∈ @nil nat) as Hin by (by apply Hrows). by inversion Hin. }
  split.
  - unfold _batch_analyze_sequential. cbn [foldl].
    unfold row_item at 2. rewrite Habs1.
    apply foldl_raised. by intros e b.
  - assert (Hpar : _batch_analyze_parallel chat df1 df1
                     (as_completed (r0 :: rows'))
                   = foldl (λ df i, set_at df i answer_column (Some []))
                           df1 (as_completed (r0 :: rows'))).
    { unfold _batch_analyze_parallel. apply foldl_ext_eq. intros d i.
      unfold analyze_single_row, row_item. by rewrite Habs1. }
    rewrite Hpar, (set_at_fold (λ _, Some []) _ _ _ ans Hans).
    eexists _, _. split; [done|]. simpl. split; [by rewrite lookup_insert_eq|].
    intros i Hi Hs. rewrite insert_fold_lookup by lia.
    rewrite decide_True; [done|]. rewrite Hperm. by apply Hrows.
Qed.

End analyzer_more.

Lemma parallel_equals_sequential_witness :
  let chat : nat → pystr → exn + pystr :=
    λ i _, if decide (i = 0) then inl (Raised (py "timeout"))
           else inr (py " (TP53, apoptosis) ") in
  let df := mkDataFrame 2
              {[ abstract_column := [Some (py "first"); Some (py "second")] ]} in
  Analyzer.batch_analyze chat true reverse df 0
  = Analyzer.batch_analyze chat false id df 0.
Proof.
  intros chat df.
  apply (parallel_equals_sequential chat reverse id df 0
           [Some (py "first"); Some (py "second")]).
  - intros l. apply reverse_Permutation.
  - done.
  - intros c col H. unfold df in H. simpl in H.
    apply lookup_singleton_Some in H as [_ <-]. done.
Defined.

Lemma batch_analyze_without_abstract_witness :
  let chat : nat → pystr → exn + pystr := λ _ _, inr (py "(A, B)") in
  let df := mkDataFrame 2 {[ title_column := [Some (py "t1"); Some (py "t2")] ]} in
  Analyzer.batch_analyze chat false reverse df 0
    = inl (KeyError abstract_column) ∧
  ∃ df' ans',
    Analyzer.batch_analyze chat true reverse df 0 = inr df' ∧
    columns df' !! answer_column = Some ans' ∧
    ∀ i, i < 2 → (0 ≤ Z.of_nat i)%Z → ans' !! i = Some (Some []).
Proof.
  intros chat df.
  apply (batch_analyze_without_abstract chat reverse df 0 0).
  - intros l. apply reverse_Permutation.
  - by vm_compute.
  - intros c col H. unfold df in H. simpl in H.
    apply lookup_singleton_Some in H as [_ <-]. done.
  - simpl. lia.
  - lia.
Defined.

(* ===================================================================== *)
(** ** Further properties of core.py *)
(* ===================================================================== *)

Section pipeline_more.
Import Core.

Context {NetStats : Type}.
Context (search_and_save :
           pystr → option Z → exn + (DataFrame * option pystr)).
Context (batch_analyze : DataFrame → exn + DataFrame).
Context (save_results : DataFrame → pystr → exn + pystr).
Context (process_entities :
           DataFrame → exn + (DataFrame * list pystr * PyDict.t)).
Context (save_processed_data : DataFrame → pystr → exn + pystr).
Context (create_full_network : DataFrame → pystr → exn + pystr).
Context (create_filtered_network :
           DataFrame → pystr → pystr → Z → option (list pystr) →
           exn + (pystr * list pystr)).
Context (analyze_network_structure : DataFrame → exn + NetStats).
Context (generate_summary : list pystr → pystr → exn + pystr).
Context (generate_full_report :
           Z → Z → Z → NetStats → pystr → pystr → exn + pystr).
Context (save_results_json : Results NetStats → pystr → exn + pystr).

Local Abbreviation build := (build_knowledge_graph NetStats search_and_save
  batch_analyze save_results process_entities save_processed_data
  create_full_network create_filtered_network analyze_network_structure
  generate_summary generate_full_report save_results_json).

Local Ltac unfold_run :=
  unfold build_knowledge_graph, run_pipeline, pipeline;
  unfold mbind, M_bind, bind, call, write, read, mret, M_ret, ret.

Local Ltac next_stage H :=
  rewrite H; cbn beta iota zeta delta [current earlier fst snd].

(** When the search returns an empty table, the run stops there: the
    dictionary holds the search file and the article count only, has no
    [error], and does not depend on any later stage. *)
Theorem empty_search_stops_pipeline kw max_results exclude_entities depth
    df search_file :
  search_and_save kw max_results = inr (df, search_file) →
  df_empty df = true →
  build kw max_results exclude_entities depth
  = mkResults _ kw
      (<[py "search_results" := search_file]> ∅)
      (<[py "total_articles" := StatInt (len_df df)]> ∅)
      None None None None.
Proof.
  intros H1 H2. unfold_run. next_stage H1. by rewrite H2.
Qed.

(** When every stage goes through, the dictionary holds the seven
    files, the four statistics, the entities, the node names and the
    summary, and no [error].  The dictionary written to the JSON file
    is the one before [json_results] is added: the file does not name
    itself. *)
Theorem full_run_results kw max_results exclude_entities depth
    df search_file df' causal_file processed_df ents similar_phrases
    processed_file full_network_file filtered_network_file names
    network_stats summary report_file json_file :
  let total_entities := Z.of_nat (length ents) in
  let unique_entities :=
    (Z.of_nat (length ents) - Z.of_nat (length similar_phrases))%Z in
  let statistics :=
    <[py "network_stats" := StatNetwork network_stats]>
      (<[py "unique_entities" := StatInt unique_entities]>
         (<[py "total_entities" := StatInt total_entities]>
            (<[py "total_articles" := StatInt (len_df df)]> ∅))) in
  let files_before_json :=
    <[py "report" := Some report_file]>
      (<[py "filtered_network" := Some filtered_network_file]>
         (<[py "full_network" := Some full_network_file]>
            (<[py "processed_data" := Some processed_file]>
               (<[py "causal_analysis" := Some causal_file]>
                  (<[py "search_results" := search_file]> ∅))))) in
  search_and_save kw max_results = inr (df, search_file) →
  df_empty df = false →
  batch_analyze df = inr df' →
  save_results df' kw = inr causal_file →
  process_entities df' = inr (processed_df, ents, similar_phrases) →
  save_processed_data processed_df kw = inr processed_file →
  create_full_network processed_df kw = inr full_network_file →
  create_filtered_network processed_df kw kw depth exclude_entities
    = inr (filtered_network_file, names) →
  analyze_network_structure processed_df = inr network_stats →
  generate_summary names kw = inr summary →
  generate_full_report (len_df df') total_entities unique_entities
    network_stats summary kw = inr report_file →
  save_results_json
    (mkResults _ kw files_before_json statistics
       (Some ents) (Some names) (Some summary) None) kw
    = inr json_file →
  build kw max_results exclude_entities depth
  = mkResults _ kw
      (<[py "json_results" := Some json_file]> files_before_json)
      statistics (Some ents) (Some names) (Some summary) None.
Proof.
  intros total_entities unique_entities statistics files_before_json
    H1 H2 H3 H4 H5 H6 H7 H8 H9 H10 H11 H12.
  unfold_run. next_stage H1. rewrite H2. next_stage H3. next_stage H4.
  next_stage H5. next_stage H6. next_stage H7. next_stage H8.
  next_stage H9. next_stage H10.
  unfold total_entities, unique_entities in H11. next_stage H11.
  cbv beta iota zeta delta
    [set_file set_statistic set_entities set_node_names set_ai_summary
     initial_results keyword files Core.statistics entities node_names
     ai_summary error].
  unfold statistics, files_before_json, total_entities, unique_entities
    in H12 |- *.
  rewrite H12. done.
Qed.

End pipeline_more.

Lemma empty_search_stops_pipeline_witness :
  Core.build_knowledge_graph unit
    (λ _ _, inr (mkDataFrame 0 ∅, None))
    (λ _, inl (Raised (py "not reached")))
    (λ _ _, inr []) (λ df, inr (df, [], []))
    (λ _ _, inr []) (λ _ _, inr []) (λ _ _ _ _ _, inr ([], []))
    (λ _, inr tt) (λ _ _, inr []) (λ _ _ _ _ _ _, inr []) (λ _ _, inr [])
    (py "TP53") None None 1
  = Core.mkResults unit (py "TP53")
      (<[py "search_results" := None]> ∅)
      (<[py "total_articles" := Core.StatInt 0]> ∅)
      None None None None.
Proof.
  apply (empty_search_stops_pipeline _ _ _ _ _ _ _ _ _ _ _
           (py "TP53") None None 1 (mkDataFrame 0 ∅) None); done.
Defined.

Lemma full_run_results_witness :
  let df := mkDataFrame 1 {[ abstract_column := [Some (py "text")] ]} in
  Core.build_knowledge_graph unit
    (λ _ _, inr (df, Some (py "s.xlsx")))
    (λ d, inr d) (λ _ _, inr (py "c.xlsx"))
    (λ d, inr (d, [py "A"; py "B"], []))
    (λ _ _, inr (py "p.xlsx")) (λ _ _, inr (py "full.html"))
    (λ _ _ _ _ _, inr (py "filtered.html", [py "A"]))
    (λ _, inr tt) (λ _ _, inr (py "summary"))
    (λ _ _ _ _ _ _, inr (py "report.md")) (λ _ _, inr (py "r.json"))
    (py "TP53") None None 1
  = Core.mkResults unit (py "TP53")
      (<[py "json_results" := Some (py "r.json")]>
        (<[py "report" := Some (py "report.md")]>
          (<[py "filtered_network" := Some (py "filtered.html")]>
            (<[py "full_network" := Some (py "full.html")]>
              (<[py "processed_data" := Some (py "p.xlsx")]>
                (<[py "causal_analysis" := Some (py "c.xlsx")]>
                  (<[py "search_results" := Some (py "s.xlsx")]> ∅)))))))
      (<[py "network_stats" := Core.StatNetwork tt]>
        (<[py "unique_entities" := Core.StatInt 2]>
          (<[py "total_entities" := Core.StatInt 2]>
            (<[py "total_articles" := Core.StatInt 1]> ∅))))
      (Some [py "A"; py "B"]) (Some [py "A"]) (Some (py "summary")) None.
Proof.
  intros df.
  apply (full_run_results _ _ _ _ _ _ _ _ _ _ _
           (py "TP53") None None 1 df (Some (py "s.xlsx")) df (py "c.xlsx")
           df [py "A"; py "B"] [] (py "p.xlsx") (py "full.html")
           (py "filtered.html") [py "A"] tt (py "summary") (py "report.md")
           (py "r.json")); try reflexivity.
Defined.

(* ===================================================================== *)
(** ** Properties of utils/helpers.py *)
(* ===================================================================== *)

Section api_key_facts.
Import Helpers.

(** Replacing a character by the empty string deletes it. *)
Lemma replace_char_deletes c s :
  PyStr.replace [c] [] s = filter (λ x, x ≠ c) s.
Proof.
  unfold PyStr.replace.
  induction s as [|x s IH]; [done|]. cbn [PyStr.replace_from].
  cbn [PyStr.startswith]. destruct (decide (c = x)) as [->|Hne].
  - cbn [PyStr.startswith length Nat.sub app]. rewrite IH.
    by rewrite filter_cons_False by (by intros ?).
  - rewrite IH. by rewrite filter_cons_True by congruence.
Qed.

Lemma isalnum_spec s :
  isalnum s = true ↔ s ≠ [] ∧ Forall (λ c, is_alnum c = true) s.
Proof.
  unfold isalnum. rewrite andb_true_iff, negb_true_iff, bool_decide_eq_false.
  rewrite forallb_forall, Forall_forall.
  split; intros [? H]; (split; [done|]); intros c Hc; apply H;
    by apply list_elem_of_In.
Qed.

(** A key is accepted exactly when it has at least 20 characters, all of
    them alphanumeric, hyphens or underscores, and at least one of them
    alphanumeric. *)
Theorem validate_api_key_spec api_key :
  validate_api_key api_key = true ↔
  20 ≤ length api_key ∧
  Forall (λ c, is_alnum c = true ∨ c = hyphen ∨ c = underscore) api_key ∧
  Exists (λ c, is_alnum c = true) api_key.
Proof.
  unfold validate_api_key. rewrite !replace_char_deletes.
  set (f := filter (λ x, x ≠ underscore) (filter (λ x, x ≠ hyphen) api_key)).
  assert (Hf : ∀ c, c ∈ f ↔ c ∈ api_key ∧ c ≠ hyphen ∧ c ≠ underscore).
  { intros c. unfold f. rewrite !list_elem_of_filter. tauto. }
  assert (Halnum : isalnum f = true ↔
            Forall (λ c, is_alnum c = true ∨ c = hyphen ∨ c = underscore)
                   api_key ∧
            Exists (λ c, is_alnum c = true) api_key).
  { rewrite isalnum_spec, !Forall_forall, Exists_exists. split.
    - intros [Hne Hall]. split.
      + intros c Hc. destruct (decide (c = hyphen)); [tauto|].
        destruct (decide (c = underscore)); [tauto|].
        left. apply Hall, Hf. tauto.
      + destruct f as [|c f'] eqn:Hfe; [done|]. exists c.
        assert (Hc : c ∈ c :: f') by by left.
        split; [by apply Hf in Hc as [? _]|by apply Hall].
    - intros [Hall (c & Hc & Hac)]. split.
      + assert (c ∈ f) as Hin.
        { apply Hf. split; [done|]. split; intros ->; by vm_compute in Hac. }
        intros Hnil. rewrite Hnil in Hin. by inversion Hin.
      + intros x [Hx [Hh Hu]]%Hf. destruct (Hall x Hx) as [?|[?|?]]; done. }
  destruct (bool_decide (api_key = [])) eqn:He; simpl.
  - apply bool_decide_eq_true in He as ->. split; [done|]. simpl. lia.
  - destruct (length api_key <? 20) eqn:Hlen.
    + apply Nat.ltb_lt in Hlen. split; [done|]. lia.
    + apply Nat.ltb_ge in Hlen.
      destruct (isalnum f) eqn:Hal; simpl.
      * split; [|done]. intros _. split; [done|]. by apply Halnum.
      * split; [done|]. intros [_ H]. apply Halnum in H. congruence.
Qed.

End api_key_facts.

Section clean_text_facts.
Import Helpers.

Lemma elem_of_rev (c : ascii) (l : pystr) : c ∈ rev l ↔ c ∈ l.
Proof. rewrite !list_elem_of_In. symmetry. apply in_rev. Qed.

Lemma split_from_words s cur :
  Forall (λ c, PyStr.is_space c = false) cur →
  Forall (Forall (λ c, PyStr.is_space c = false ∧ (c ∈ cur ∨ c ∈ s)))
         (PyStr.split_from s cur).
Proof.
  revert cur. induction s as [|x s IH]; intros cur Hcur; cbn [PyStr.split_from].
  - destruct cur as [|y cur']; [constructor|].
    constructor; [|constructor].
    apply Forall_forall. intros c Hc. rewrite elem_of_rev in Hc.
    split; [|by left]. by eapply (proj1 (Forall_forall _ _) Hcur).
  - destruct (PyStr.is_space x) eqn:Hx.
    + assert (Hrest : Forall (Forall (λ c, PyStr.is_space c = false ∧
                                          (c ∈ cur ∨ c ∈ x :: s)))
                             (PyStr.split_from s [])).
      { eapply Forall_impl; [apply IH; constructor|].
        intros w Hw. eapply Forall_impl; [exact Hw|].
        intros c [? [Hc|Hc]]; [by inversion Hc|].
        split; [done|]. right. by right. }
      destruct cur as [|y cur']; [done|].
      constructor; [|done].
      apply Forall_forall. intros c Hc. rewrite elem_of_rev in Hc.
      split; [|by left]. by eapply (proj1 (Forall_forall _ _) Hcur).
    + eapply Forall_impl; [apply IH; by constructor|].
      intros w Hw. eapply Forall_impl; [exact Hw|].
      intros c [? [Hc|Hc]]; (split; [done|]).
      * apply elem_of_cons in Hc as [->|Hc]; [right; by left|by left].
      * right. by right.
Qed.

Lemma elem_of_join sep ws c :
  c ∈ join sep ws → c ∈ sep ∨ ∃ w, w ∈ ws ∧ c ∈ w.
Proof.
  induction ws as [|w ws IH]; [by inversion 1|].
  destruct ws as [|w' ws'].
  - simpl. intros Hc. right. exists w. split; [by left|done].
  - change (join sep (w :: w' :: ws')) with (w ++ sep ++ join sep (w' :: ws')).
    rewrite !elem_of_app. intros [Hc|[Hc|Hc]].
    + right. exists w. split; [by left|done].
    + by left.
    + destruct (IH Hc) as [?|(v & Hv & Hcv)]; [by left|].
      right. exists v. split; [by right|done].
Qed.

Lemma elem_of_lstrip c s : c ∈ PyStr.lstrip s → c ∈ s.
Proof.
  destruct (lstrip_suffix s) as [w Hw]. intros Hc. rewrite Hw.
  apply elem_of_app. by right.
Qed.

Lemma elem_of_strip c s : c ∈ PyStr.strip s → c ∈ s.
Proof.
  unfold PyStr.strip, PyStr.rstrip. intros Hc.
  rewrite elem_of_rev in Hc. apply elem_of_lstrip in Hc. rewrite elem_of_rev in Hc.
  by apply elem_of_lstrip.
Qed.

Lemma printable_not_space c :
  printable c = true → PyStr.is_space c = false → (32 <= N_of_ascii c)%N.
Proof.
  unfold printable. rewrite !orb_true_iff, !bool_decide_eq_true.
  intros [[H| ->]| ->] Hs; [by apply N.leb_le in H| |]; by vm_compute in Hs.
Qed.

(** The cleaned text has no control character at all, no leading or
    trailing whitespace, and each of its characters is a blank or a
    character of the text that is not whitespace. *)
Theorem clean_text_output text :
  Forall (λ c, (32 <= N_of_ascii c)%N ∧
               (c = blank ∨ (PyStr.is_space c = false ∧ c ∈ text)))
         (clean_text text) ∧
  PyStr.strip (clean_text text) = clean_text text.
Proof.
  destruct text as [|x text']; [split; [constructor|done]|].
  set (text := x :: text'). split; [|apply strip_idemp].
  apply Forall_forall. intros c Hc. unfold clean_text in Hc. fold text in Hc.
  cbv zeta in Hc. apply elem_of_strip in Hc.
  apply list_elem_of_filter in Hc as [Hp Hc].
  apply elem_of_join in Hc as [Hc|(w & Hw & Hc)].
  - apply list_elem_of_singleton in Hc as ->. split; [by vm_compute|by left].
  - pose proof (split_from_words text [] ltac:(constructor)) as Hall.
    rewrite Forall_forall in Hall. specialize (Hall w Hw).
    rewrite Forall_forall in Hall. destruct (Hall c Hc) as [Hs [Hin|Hin]];
      [by inversion Hin|].
    split; [by apply printable_not_space|]. right. done.
Qed.

End clean_text_facts.

Section truncate_text_facts.
Import Helpers.

Lemma slice_to_length k s : length (slice_to k s) ≤ length s.
Proof. unfold slice_to. destruct (0 <=? k)%Z; rewrite length_take; lia. Qed.

Lemma slice_to_nonneg_length k s :
  (0 ≤ k)%Z → (Z.of_nat (length (slice_to k s)) ≤ k)%Z.
Proof.
  intros Hk. unfold slice_to. rewrite (proj2 (Z.leb_le 0 k) Hk).
  rewrite length_take. lia.
Qed.

Lemma slice_to_prefix k s : slice_to k s `prefix_of` s.
Proof. unfold slice_to. destruct (0 <=? k)%Z; apply prefix_take. Qed.

Lemma rfind_char_range c s :
  (-1 ≤ rfind_char c s < Z.of_nat (length s))%Z.
Proof.
  induction s as [|x s IH]; [simpl; lia|]. cbn [rfind_char length].
  cbv zeta. destruct (0 <=? rfind_char c s)%Z eqn:Hr.
  - apply Z.leb_le in Hr. lia.
  - destruct (decide (x = c)); lia.
Qed.

Lemma rfind_char_hit c s :
  (0 ≤ rfind_char c s)%Z → s !! Z.to_nat (rfind_char c s) = Some c.
Proof.
  induction s as [|x s IH]; [simpl; lia|]. cbn [rfind_char]. cbv zeta.
  destruct (0 <=? rfind_char c s)%Z eqn:Hr.
  - apply Z.leb_le in Hr. intros _.
    replace (Z.to_nat (rfind_char c s + 1)) with (S (Z.to_nat (rfind_char c s)))
      by lia.
    simpl. by apply IH.
  - destruct (decide (x = c)) as [->|]; [done|lia].
Qed.

Lemma rfind_char_last c s i :
  (rfind_char c s < Z.of_nat i)%Z → s !! i ≠ Some c.
Proof.
  revert i. induction s as [|x s IH]; intros i; [done|].
  cbn [rfind_char]. cbv zeta.
  destruct (0 <=? rfind_char c s)%Z eqn:Hr.
  - apply Z.leb_le in Hr. intros Hlt. destruct i as [|i]; [lia|].
    simpl. apply IH. lia.
  - apply Z.leb_gt in Hr. destruct (decide (x = c)) as [->|Hne]; intros Hlt.
    + destruct i as [|i]; [lia|]. simpl. apply IH. lia.
    + destruct i as [|i]; [simpl; congruence|]. simpl. apply IH. lia.
Qed.

(** The result respects [max_length] exactly when the text already fits
    or the suffix fits: with a suffix longer than [max_length], a text
    that is too long gives a result that is too long as well. *)
Theorem truncate_text_within_limit text max_length suffix :
  (Z.of_nat (length (truncate_text text max_length suffix)) ≤ max_length)%Z ↔
  (Z.of_nat (length text) ≤ max_length)%Z ∨
  (Z.of_nat (length suffix) ≤ max_length)%Z.
Proof.
  unfold truncate_text.
  destruct (Z.of_nat (length text) <=? max_length)%Z eqn:Hfit.
  - apply Z.leb_le in Hfit. tauto.
  - apply Z.leb_gt in Hfit. cbv zeta.
    set (k := (max_length - Z.of_nat (length suffix))%Z).
    set (t := slice_to k text).
    set (t' := if (0 <? rfind_char blank t)%Z
               then slice_to (rfind_char blank t) t else t).
    rewrite length_app. split.
    + intros Hle. right. lia.
    + intros [Hle|Hle]; [lia|].
      assert (length t' ≤ length t) as Ht'.
      { unfold t'. destruct (0 <? _)%Z; [apply slice_to_length|done]. }
      pose proof (slice_to_nonneg_length k text ltac:(lia)). fold t in H. lia.
Qed.

(** When the text is too long and the suffix fits, the result is a
    prefix of the text followed by the suffix; the prefix is the window
    of [max_length - len suffix] characters, or it is not empty and ends
    just before the last blank of that window. *)
Theorem truncate_text_cut text max_length suffix :
  (max_length < Z.of_nat (length text))%Z →
  (Z.of_nat (length suffix) ≤ max_length)%Z →
  ∃ pre rest,
    text = pre ++ rest ∧
    truncate_text text max_length suffix = pre ++ suffix ∧
    let window := Z.to_nat (max_length - Z.of_nat (length suffix)) in
    (pre = take window text ∨
     (pre ≠ [] ∧ length pre < window ∧ head rest = Some blank ∧
      ∀ i, length pre < i < window → text !! i ≠ Some blank)).
Proof.
  intros Hlong Hsuf. unfold truncate_text.
  rewrite (proj2 (Z.leb_gt _ _) Hlong). cbv zeta.
  set (k := (max_length - Z.of_nat (length suffix))%Z).
  assert (Hk : slice_to k text = take (Z.to_nat k) text).
  { unfold slice_to. by rewrite (proj2 (Z.leb_le 0 k)) by lia. }
  rewrite Hk. set (t := take (Z.to_nat k) text).
  destruct (0 <? rfind_char blank t)%Z eqn:Hsp.
  - apply Z.ltb_lt in Hsp. set (r := rfind_char blank t) in *.
    pose proof (rfind_char_range blank t) as Hr. fold r in Hr.
    pose proof (rfind_char_hit blank t ltac:(fold r; lia)) as Hhit.
    fold r in Hhit.
    assert (Hlt : length t ≤ Z.to_nat k) by (unfold t; rewrite length_take; lia).
    assert (Hs : slice_to r t = take (Z.to_nat r) text).
    { unfold slice_to. rewrite (proj2 (Z.leb_le 0 r)) by lia.
      unfold t. rewrite take_take. f_equal. lia. }
    rewrite Hs. exists (take (Z.to_nat r) text), (drop (Z.to_nat r) text).
    split; [by rewrite take_drop|]. split; [done|]. right.
    assert (Hlen : length (take (Z.to_nat r) text) = Z.to_nat r).
    { rewrite length_take. lia. }
    split; [|split; [|split]].
    + intros Hnil. rewrite Hnil in Hlen. simpl in Hlen. lia.
    + lia.
    + rewrite head_lookup, lookup_drop, Nat.add_0_r.
      unfold t in Hhit. by rewrite lookup_take_lt in Hhit by lia.
    + intros i [Hi1 Hi2]. rewrite Hlen in Hi1.
      pose proof (rfind_char_last blank t i ltac:(fold r; lia)) as Hno.
      unfold t in Hno. by rewrite lookup_take_lt in Hno by lia.
  - exists t, (drop (Z.to_nat k) text).
    split; [unfold t; by rewrite take_drop|]. split; [done|]. by left.
Qed.

End truncate_text_facts.

Lemma truncate_text_cut_witness :
  ∃ pre rest,
    py "hello wonderful world" = pre ++ rest ∧
    Helpers.truncate_text (py "hello wonderful world") 12 (py "...")
      = pre ++ py "..." ∧
    (pre = take 9 (py "hello wonderful world") ∨
     (pre ≠ [] ∧ length pre < 9 ∧ head rest = Some Helpers.blank ∧
      ∀ i, length pre < i < 9 →
           py "hello wonderful world" !! i ≠ Some Helpers.blank)).
Proof.
  apply (truncate_text_cut (py "hello wonderful world") 12 (py "..."));
    vm_compute; congruence.
Defined.

Section output_directory_facts.
Import Helpers.

Lemma double_hyphen_cons x r :
  is_substring [hyphen; hyphen] (x :: r) →
  (x = hyphen ∧ head r = Some hyphen) ∨ is_substring [hyphen; hyphen] r.
Proof.
  intros (pre & post & Heq). destruct pre as [|y pre].
  - simpl in Heq. injection Heq as -> ->. by left.
  - simpl in Heq. injection Heq as -> ->. right. by exists pre, post.
Qed.

Lemma collapse_runs_chars s in_run c :
  c ∈ collapse_runs s in_run →
  c = hyphen ∨ (c ∈ s ∧ PyStr.is_space c = false).
Proof.
  revert in_run. induction s as [|x s IH]; intros in_run; [by inversion 1|].
  cbn [collapse_runs].
  destruct (bool_decide (x = hyphen) || PyStr.is_space x) eqn:Hx.
  - destruct in_run; [|rewrite elem_of_cons; intros [->|Hc]; [by left|]];
      intros; (destruct (IH true) as [?|[? ?]]; [done|by left|]);
      right; (split; [by right|done]).
  - apply orb_false_iff in Hx as [_ Hx].
    rewrite elem_of_cons. intros [->|Hc]; [right; split; [by left|done]|].
    destruct (IH false Hc) as [?|[? ?]]; [by left|].
    right. split; [by right|done].
Qed.

Lemma collapse_runs_single s in_run :
  ¬ is_substring [hyphen; hyphen] (collapse_runs s in_run) ∧
  (in_run = true → head (collapse_runs s in_run) ≠ Some hyphen).
Proof.
  revert in_run. induction s as [|x s IH]; intros in_run.
  - split; [|done]. intros (pre & post & Heq). by destruct pre.
  - cbn [collapse_runs].
    destruct (bool_decide (x = hyphen) || PyStr.is_space x) eqn:Hx.
    + destruct (IH true) as [IH1 IH2]. destruct in_run; [by split|].
      split; [|done]. intros [[_ Hh]|Hsub]%double_hyphen_cons; [|done].
      by apply IH2.
    + apply orb_false_iff in Hx as [Hx _]. apply bool_decide_eq_false in Hx.
      destruct (IH false) as [IH1 _]. split.
      * intros [[? _]|Hsub]%double_hyphen_cons; done.
      * intros _. simpl. congruence.
Qed.

Lemma clean_keyword_chars keyword c :
  c ∈ clean_keyword keyword →
  (is_word c = true ∧ c ∈ keyword) ∨ c = hyphen.
Proof.
  unfold clean_keyword. cbv zeta. intros Hc.
  apply collapse_runs_chars in Hc as [->|[Hc Hs]]; [by right|].
  apply elem_of_strip, list_elem_of_filter in Hc as [[Hw|[Hw|Hw]] Hc].
  - left. done.
  - congruence.
  - by right.
Qed.

(** The directory name derived from a keyword consists of word
    characters of the keyword and hyphens only, and has no two hyphens
    in a row. *)
Theorem clean_keyword_safe keyword :
  Forall (λ c, (is_word c = true ∧ c ∈ keyword) ∨ c = hyphen)
         (clean_keyword keyword) ∧
  ¬ is_substring [hyphen; hyphen] (clean_keyword keyword).
Proof.
  split; [|apply collapse_runs_single].
  apply Forall_forall. intros c. apply clean_keyword_chars.
Qed.

(** The directory is the base directory joined with the cleaned
    keyword, and the cleaned keyword has neither a path separator nor
    a dot: the keyword cannot lead out of the base directory. *)
Theorem create_output_directory_under_base base_dir keyword :
  (slash ∉ clean_keyword keyword) ∧
  (dot ∉ clean_keyword keyword) ∧
  create_output_directory base_dir keyword =
    base_dir ++
    (if bool_decide (base_dir = []) || bool_decide (last base_dir = Some slash)
     then [] else [slash]) ++
    clean_keyword keyword.
Proof.
  assert (Hslash : slash ∉ clean_keyword keyword).
  { intros [[Hw _]|Hh]%clean_keyword_chars;
      [by vm_compute in Hw|by vm_compute in Hh]. }
  split; [done|]. split.
  { intros [[Hw _]|Hh]%clean_keyword_chars;
      [by vm_compute in Hw|by vm_compute in Hh]. }
  unfold create_output_directory, path_join.
  destruct (clean_keyword keyword) as [|c d] eqn:Hd.
  - simpl. by destruct (_ || _).
  - cbn [PyStr.startswith]. destruct (decide (slash = c)) as [<-|_].
    + exfalso. apply Hslash. by left.
    + by destruct (_ || _).
Qed.

End output_directory_facts.

Section email_facts.
Import Helpers.

Lemma plus_spec cls k s :
  plus cls k s = true ↔
  ∃ a b, s = a ++ b ∧ a ≠ [] ∧ Forall (λ c, cls c = true) a ∧ k b = true.
Proof.
  induction s as [|c s IH]; cbn [plus].
  - split; [done|]. intros (a & b & Heq & Hne & _). by destruct a.
  - rewrite andb_true_iff, orb_true_iff, IH. split.
    + intros [Hc [(a & b & -> & Hne & Ha & Hk)|Hk]].
      * exists (c :: a), b. repeat split; [done|by constructor|done].
      * exists [c], s. repeat split; [done|by repeat constructor|done].
    + intros (a & b & Heq & Hne & Ha & Hk).
      destruct a as [|x a]; [done|]. injection Heq as <- ->.
      apply Forall_cons in Ha as [Hc Ha]. split; [done|].
      destruct a as [|y a]; [by right|]. left.
      exists (y :: a), b. by repeat split.
Qed.

Lemma one_spec cls k s :
  one cls k s = true ↔ ∃ c b, s = c :: b ∧ cls c = true ∧ k b = true.
Proof.
  destruct s as [|c s]; cbn [one].
  - split; [done|]. by intros (? & ? & ? & _).
  - rewrite andb_true_iff. split; [intros []; by eauto|].
    by intros (? & ? & [= <- <-] & ? & ?).
Qed.

Lemma lit_spec x k s : lit x k s = true ↔ ∃ b, s = x :: b ∧ k b = true.
Proof.
  unfold lit. rewrite one_spec. split.
  - intros (c & b & -> & ->%bool_decide_eq_true & Hk). by exists b.
  - intros (b & -> & Hk). exists x, b. by rewrite bool_decide_eq_true.
Qed.

Lemma at_end_spec s : at_end s = true ↔ s = [] ∨ s = [newline].
Proof. unfold at_end. by rewrite orb_true_iff, !bool_decide_eq_true. Qed.

Lemma validate_email_shape email :
  validate_email email = true ↔
  ∃ local domain tld tail, address_shape email local domain tld tail.
Proof.
  unfold validate_email, address_shape. rewrite plus_spec. split.
  - intros (local & r1 & -> & Hl & Hlc & H).
    apply lit_spec in H as (r2 & -> & H).
    apply plus_spec in H as (domain & r3 & -> & Hd & Hdc & H).
    apply lit_spec in H as (r4 & -> & H).
    apply one_spec in H as (c & r5 & -> & Hc & H).
    apply plus_spec in H as (t & tail & -> & Ht & Htc & H).
    apply at_end_spec in H.
    exists local, domain, (c :: t), tail. repeat split; try done.
    + destruct t; [done|simpl; lia].
    + by constructor.
  - intros (local & domain & tld & tail & -> & Hl & Hlc & Hd & Hdc & Hlen
            & Htc & Htail).
    exists local, ([at_sign] ++ domain ++ [dot] ++ tld ++ tail).
    repeat split; try done. apply lit_spec. eexists. split; [done|].
    apply plus_spec. exists domain, ([dot] ++ tld ++ tail).
    repeat split; try done. apply lit_spec. eexists. split; [done|].
    destruct tld as [|c [|c' t]]; [simpl in Hlen; lia..|].
    apply Forall_cons in Htc as [Hc Htc].
    apply one_spec. exists c, ((c' :: t) ++ tail). repeat split; try done.
    apply plus_spec. exists (c' :: t), tail. repeat split; try done.
    by apply at_end_spec.
Qed.

(** An address is accepted exactly when it is a non-empty local part of
    letters, digits and [._%+-], an at sign, a non-empty domain of
    letters, digits, dots and hyphens, a dot and at least two letters,
    optionally followed by one newline. *)
Theorem validate_email_spec email :
  validate_email email = true ↔
  ∃ local domain tld tail,
    email = local ++ [at_sign] ++ domain ++ [dot] ++ tld ++ tail ∧
    local ≠ [] ∧ Forall (λ c, local_char c = true) local ∧
    domain ≠ [] ∧ Forall (λ c, domain_char c = true) domain ∧
    2 ≤ length tld ∧ Forall (λ c, is_letter c = true) tld ∧
    (tail = [] ∨ tail = [newline]).
Proof. apply validate_email_shape. Qed.

(** An accepted address that does not end in a newline is still
    accepted with a newline appended. *)
Theorem validate_email_accepts_trailing_newline email :
  validate_email email = true →
  last email ≠ Some newline →
  validate_email (email ++ [newline]) = true.
Proof.
  rewrite !validate_email_shape.
  intros (local & domain & tld & tail & Heq & Hrest) Hlast.
  destruct Hrest as (Hl & Hlc & Hd & Hdc & Hlen & Htc & [->| ->]).
  - exists local, domain, tld, [newline]. unfold address_shape.
    rewrite Heq. repeat split; try done; [|by right].
    by rewrite app_nil_r, <- !app_assoc.
  - exfalso. apply Hlast. rewrite Heq.
    by rewrite !app_assoc, last_snoc.
Qed.

(** An accepted address has exactly one at sign. *)
Theorem validate_email_one_at_sign email :
  validate_email email = true →
  length (filter (λ c, c = at_sign) email) = 1.
Proof.
  rewrite validate_email_shape.
  intros (local & domain & tld & tail & -> & _ & Hlc & _ & Hdc & _ & Htc & Ht).
  assert (Hnone : ∀ (P : ascii → Prop) l,
            Forall P l → (∀ c, P c → c ≠ at_sign) →
            filter (λ c, c = at_sign) l = []).
  { intros P l Hall Hno. induction Hall as [|c l Hc _ IH]; [done|].
    rewrite filter_cons_False by (by apply Hno). done. }
  rewrite !filter_app.
  rewrite (Hnone _ local Hlc), (Hnone _ domain Hdc), (Hnone _ tld Htc).
  - destruct Ht as [->| ->]; done.
  - intros c Hc ->. by vm_compute in Hc.
  - intros c Hc ->. by vm_compute in Hc.
  - intros c Hc ->. by vm_compute in Hc.
Qed.

End email_facts.

Lemma validate_email_accepts_trailing_newline_witness :
  Helpers.validate_email (py "a@b.co") = true ∧
  last (py "a@b.co") ≠ Some Helpers.newline ∧
  Helpers.validate_email (py "a@b.co" ++ [Helpers.newline]) = true.
Proof.
  split; [reflexivity|]. split; [by vm_compute|].
  apply validate_email_accepts_trailing_newline; [reflexivity|by vm_compute].
Defined.

Lemma validate_email_one_at_sign_witness :
  Helpers.validate_email (py "liu.zq@mail.example.org") = true ∧
  length (filter (λ c, c = Helpers.at_sign) (py "liu.zq@mail.example.org")) = 1.
Proof.
  split; [reflexivity|].
  apply validate_email_one_at_sign. reflexivity.
Defined.

(* ===================================================================== *)
(** ** Properties of generator.py *)
(* ===================================================================== *)

Section serializable_facts.
Import Generator.
Context {F K O : Type}.
Variable str_of : O → pystr.

Local Abbreviation value := (value F K O).

(** Induction over values, through the lists of a dictionary, a list
    or a tuple. *)
Lemma value_nested_ind (P : value → Prop) :
  P VNone → (∀ b, P (VBool b)) → (∀ n, P (VInt n)) → (∀ x, P (VFloat x)) →
  (∀ s, P (VStr s)) →
  (∀ items, Forall (λ kv, P kv.2) items → P (VDict items)) →
  (∀ elems, Forall P elems → P (VList elems)) →
  (∀ elems, Forall P elems → P (VTuple elems)) →
  (∀ o, P (VOther o)) →
  ∀ v, P v.
Proof.
  intros HN HB HI HF HS HD HL HT HO.
  fix IH 1. intros [| | | | |items|elems|elems|o];
    [done|apply HB|apply HI|apply HF|apply HS| | | |apply HO].
  - apply HD. induction items as [|[k v] items IHl]; constructor; [|done].
    apply IH.
  - apply HL. induction elems as [|v elems IHl]; constructor; [|done].
    apply IH.
  - apply HT. induction elems as [|v elems IHl]; constructor; [|done].
    apply IH.
Qed.




(** The conversion leaves every dictionary key as it is, also the keys
    of nested dictionaries: a key that is not a string stays one. *)
Theorem make_serializable_keeps_keys (v : value) :
  keys (_make_serializable str_of v) = keys v.
Proof.
  induction v as [| | | | |items IH|elems IH|elems IH|o]
    using value_nested_ind; try done.
  - cbn [keys _make_serializable].
    induction IH as [|[k v] items Hv _ IHl]; [done|].
    cbn [map flat_map]. simpl in Hv. by rewrite Hv, IHl.
  - cbn [keys _make_serializable].
    induction IH as [|v elems Hv _ IHl]; [done|].
    cbn [map flat_map]. by rewrite Hv, IHl.
  - cbn [keys _make_serializable].
    induction IH as [|v elems Hv _ IHl]; [done|].
    cbn [map flat_map]. by rewrite Hv, IHl.
Qed.

End serializable_facts.

